(** * bpmn-engine: the Definition execution of lib/Definition.js

    A shallow embedding of [DefinitionInstance] and [DefinitionExecution]
    (lib/Definition.js) as state-passing code over the closure variables of
    the source, with the effects that leave the Definition (events emitted
    on the definition, the completion callback, calls into Process objects,
    [environment.assignResult], [setImmediate]) recorded in a trace.

    Process.js, Environment.js, context-helper.js and validation.js are not
    embedded.  What the Definition takes from them
    (the validation warnings, the process list, the executable process id,
    the owner of a message target, what a process answers to [signal]) is a
    field of [DefinitionApi] or an argument of the call.  A Process talks
    back to the Definition through the five events the Definition listens
    to; here such an event is an input of the machine ([ProcessEmits]),
    fed after the call that caused it: a call into a Process returns before
    the Definition handles what the Process emits.  User code (the
    completion callback, listeners on the definition) is passive: it is
    recorded, it does not call back into the Definition.  [execute] is taken
    without new options, so the environment and the processes are those the
    definition was made with.

    The code of the Activity with its multi-instance loop is not at hand
    either; [LoopController] models it from the specification and from the
    expectations of the repository's tests. *)

From Stdlib Require Import ZArith Lia.
From stdpp Require Import base option list strings gmap pretty.

Local Open Scope string_scope.
Local Open Scope Z_scope.
Local Open Scope list_scope.

(** ** Data *)

(** An error object ([new Error(message)], or a validation warning); as an
    object it is truthy whatever its message. *)
Record Err := { message : string }.

(** The completion callback handed to [execute] / [resume], by name. *)
Definition Callback := nat.

(** An output object, as [getOutput()] of a process execution returns it. *)
Definition Output := list (string * string).

(** [Process(element, moddleContext, environment)]: a loaded process. *)
Record Process := { p_id : string }.

(** What [processExecution.getState()] returns. *)
Record ProcessState := { ps_id : string; ps_body : string }.

(** The process execution object a Process passes with its events.
    [pe_ref] stands for the identity of the JS object. *)
Record ProcessExecution := {
  pe_ref : nat;
  pe_id : string;
  pe_getOutput : Output;
  pe_getState : ProcessState
}.

Global Instance Process_eq_dec : EqDecision Process.
Proof. solve_decision. Defined.
Global Instance ProcessState_eq_dec : EqDecision ProcessState.
Proof. solve_decision. Defined.
Global Instance ProcessExecution_eq_dec : EqDecision ProcessExecution.
Proof. solve_decision. Defined.

(** [message.via]. *)
Record Message := { via_id : string; via_sourceId : string; via_targetId : string }.

(** The saved state handed to [resume]: [state.processes]. *)
Record SavedState := { state_processes : gmap string ProcessState }.

(** JS values returned by [signal]. *)
Inductive JsValue := undefined | JsBool (b : bool).

(** Events of the definition's own emitter. *)
Inductive DefinitionEvent :=
| EvEnter
| EvStart
| EvEnd
| EvError (err : Err).

(** A JS exception. *)
Inductive Exn :=
| TypeError (what : string)
| Raised (err : Err).

(** Effects that leave the Definition, in the order they happen. *)
Inductive Action :=
| Emit (ev : DefinitionEvent)
| CallbackCall (cb : Callback) (err : option Err)
| ProcessRun (p : Process)
| ProcessResume (p : Process) (s : option ProcessState)
| ProcessSignal (pe : ProcessExecution) (args : list string)
| ProcessSendMessage (pe : ProcessExecution) (m : Message)
| ProcessStop (pe : ProcessExecution)
| AssignResult (o : Output)
| Uncaught (e : Exn).

Global Instance Err_eq_dec : EqDecision Err.
Proof. solve_decision. Defined.
Global Instance DefinitionEvent_eq_dec : EqDecision DefinitionEvent.
Proof. solve_decision. Defined.

(** What [DefinitionInstance] computes once from the moddle context, and
    whether the user listens to ['error'] on the definition. *)
Record DefinitionApi := {
  def_id : string;
  entryPointId : option string;
  warnings : list Err;
  processes : list Process;
  getTargetProcess : string -> option string;
  errorListener : bool
}.

(** The mutable variables: [definitionExecution] of [DefinitionInstance],
    the closure variables of [DefinitionExecution], whether [setup] has the
    five listeners on the processes, the pending [setImmediate] calls of
    [sendMessage], and the trace. *)
Record State := {
  definitionExecution : bool;
  complete : option (option Callback);
  entered : bool;
  started : bool;
  stopped : bool;
  completed : list ProcessExecution;
  running : list ProcessExecution;
  listening : bool;
  immediates : list (string * Message);
  trace : list Action
}.

Definition initial : State :=
  {| definitionExecution := false; complete := None;
     entered := false; started := false; stopped := false;
     completed := []; running := []; listening := false;
     immediates := []; trace := [] |}.

Definition set_definitionExecution (b : bool) (s : State) : State :=
  {| definitionExecution := b; complete := complete s;
     entered := entered s; started := started s; stopped := stopped s;
     completed := completed s; running := running s; listening := listening s;
     immediates := immediates s; trace := trace s |}.

Definition set_complete (c : option (option Callback)) (s : State) : State :=
  {| definitionExecution := definitionExecution s; complete := c;
     entered := entered s; started := started s; stopped := stopped s;
     completed := completed s; running := running s; listening := listening s;
     immediates := immediates s; trace := trace s |}.

Definition set_entered (b : bool) (s : State) : State :=
  {| definitionExecution := definitionExecution s; complete := complete s;
     entered := b; started := started s; stopped := stopped s;
     completed := completed s; running := running s; listening := listening s;
     immediates := immediates s; trace := trace s |}.

Definition set_started (b : bool) (s : State) : State :=
  {| definitionExecution := definitionExecution s; complete := complete s;
     entered := entered s; started := b; stopped := stopped s;
     completed := completed s; running := running s; listening := listening s;
     immediates := immediates s; trace := trace s |}.

Definition set_stopped (b : bool) (s : State) : State :=
  {| definitionExecution := definitionExecution s; complete := complete s;
     entered := entered s; started := started s; stopped := b;
     completed := completed s; running := running s; listening := listening s;
     immediates := immediates s; trace := trace s |}.

Definition set_completed (l : list ProcessExecution) (s : State) : State :=
  {| definitionExecution := definitionExecution s; complete := complete s;
     entered := entered s; started := started s; stopped := stopped s;
     completed := l; running := running s; listening := listening s;
     immediates := immediates s; trace := trace s |}.

Definition set_running (l : list ProcessExecution) (s : State) : State :=
  {| definitionExecution := definitionExecution s; complete := complete s;
     entered := entered s; started := started s; stopped := stopped s;
     completed := completed s; running := l; listening := listening s;
     immediates := immediates s; trace := trace s |}.

Definition set_listening (b : bool) (s : State) : State :=
  {| definitionExecution := definitionExecution s; complete := complete s;
     entered := entered s; started := started s; stopped := stopped s;
     completed := completed s; running := running s; listening := b;
     immediates := immediates s; trace := trace s |}.

Definition set_immediates (q : list (string * Message)) (s : State) : State :=
  {| definitionExecution := definitionExecution s; complete := complete s;
     entered := entered s; started := started s; stopped := stopped s;
     completed := completed s; running := running s; listening := listening s;
     immediates := q; trace := trace s |}.

Definition add_trace (a : Action) (s : State) : State :=
  {| definitionExecution := definitionExecution s; complete := complete s;
     entered := entered s; started := started s; stopped := stopped s;
     completed := completed s; running := running s; listening := listening s;
     immediates := immediates s; trace := trace s ++ [a] |}.

(** Several actions at once. *)
Definition log (l : list Action) (s : State) : State :=
  {| definitionExecution := definitionExecution s; complete := complete s;
     entered := entered s; started := started s; stopped := stopped s;
     completed := completed s; running := running s; listening := listening s;
     immediates := immediates s; trace := trace s ++ l |}.

(** ** A state and exception monad for the handlers *)

Inductive Outcome (A : Type) :=
| Returned (a : A) (s : State)
| Threw (e : Exn) (s : State).
Arguments Returned {A} a s.
Arguments Threw {A} e s.

Definition M (A : Type) := State -> Outcome A.

Definition ret {A} (a : A) : M A := fun s => Returned a s.

Definition bind {A B} (c : M A) (k : A -> M B) : M B :=
  fun s => match c s with
           | Returned a s' => k a s'
           | Threw e s' => Threw e s'
           end.

Definition throw {A} (e : Exn) : M A := fun s => Threw e s.
Definition get : M State := fun s => Returned s s.
Definition modify (f : State -> State) : M unit := fun s => Returned tt (f s).
Definition effect (a : Action) : M unit := modify (add_trace a).

Notation "'do' x <- c1 ; c2" := (bind c1 (fun x => c2))
  (at level 10, x name, c1 at level 100, c2 at level 200).
Notation "'exec' c1 ; c2" := (bind c1 (fun _ => c2))
  (at level 10, c1 at level 100, c2 at level 200).

(** The state an outcome leaves behind, thrown or not. *)
Definition state_of {A} (o : Outcome A) : State :=
  match o with Returned _ s => s | Threw _ s => s end.

(** [list.forEach(f)]. *)
Fixpoint forEach {A} (f : A -> M unit) (l : list A) : M unit :=
  match l with
  | [] => ret tt
  | x :: l' => exec f x; forEach f l'
  end.

(** [list.findIndex(f)]: the first index whose element satisfies [f], or -1. *)
Fixpoint findIndexFrom {A} (f : A -> bool) (i : Z) (l : list A) : Z :=
  match l with
  | [] => -1
  | x :: l' => if f x then i else findIndexFrom f (i + 1) l'
  end.

Definition findIndex {A} (f : A -> bool) (l : list A) : Z := findIndexFrom f 0 l.

(** [list[i]] for an integer [i]: [undefined] outside the list. *)
Definition at_index {A} (l : list A) (i : Z) : option A :=
  if i <? 0 then None else l !! Z.to_nat i.

(** [list.splice(i, 1)] for a found index [i]. *)
Definition splice1 {A} (i : Z) (l : list A) : list A := delete (Z.to_nat i) l.

(** JS truthiness of an optional id: [undefined] and [''] are falsy. *)
Definition truthy (o : option string) : bool :=
  match o with
  | None => false
  | Some s => negb (String.eqb s "")
  end.

(** The search loops of the source,
    [for (...) { const x = ask(list[i]); if (x) return x; }]:
    the first truthy answer in list order, [undefined] when there is none. *)
Fixpoint first_truthy {P A} (ask : P -> option A) (l : list P) : option A :=
  match l with
  | [] => None
  | p :: l' =>
      match ask p with
      | Some a => Some a
      | None => first_truthy ask l'
      end
  end.

(** An argument of [list.concat(x)]: an array, whose items are appended, or
    any other value, which is appended itself. *)
Inductive ConcatArg (A : Type) :=
| AnArray (items : list A)
| AValue (a : A).
Arguments AnArray {A} items.
Arguments AValue {A} a.

Definition concat_arg {A} (l : list A) (x : ConcatArg A) : list A :=
  match x with
  | AnArray items => l ++ items
  | AValue a => l ++ [a]
  end.

(** ** DefinitionExecution *)

Inductive RunningStatus := StatusPending | StatusRunning | StatusCompleted.

(** What [DefinitionExecution.getState()] returns; [es_stopped] is the
    optional [stopped] property. *)
Record ExecutionState := {
  es_state : RunningStatus;
  es_entryPointId : option string;
  es_stopped : option bool;
  es_processes : gmap string ProcessState
}.

(** Events a Process emits that the Definition listens to. *)
Inductive ProcessEvent :=
| PEnter (processExecution : ProcessExecution)
| PStart
| PMessage (m : Message)
| PEnd (processExecution : ProcessExecution)
| PError (err : Err).

(** What [getPendingActivities()] returns. *)
Record PendingActivities (A : Type) := {
  pa_state : RunningStatus;
  pa_children : list A
}.
Arguments pa_state {A} _.
Arguments pa_children {A} _.

Module DefinitionExecution.
Section WithDefinition.
Variable definition : DefinitionApi.

(** [definition.emit(name, ...)].  Node's emitter throws the error itself
    when ['error'] is emitted and no listener is registered for it. *)
Definition emit (ev : DefinitionEvent) : M unit :=
  exec effect (Emit ev);
  match ev with
  | EvError err =>
      if errorListener definition then ret tt else throw (Raised err)
  | _ => ret tt
  end.

Definition mainProcess : option Process :=
  List.find (fun p => bool_decide (Some (p_id p) = entryPointId definition))
            (processes definition).

Definition setup : M unit := modify (set_listening true).

Definition teardown : M unit := modify (set_listening false).

(** [completeCallback(callback)] applied to [err]. *)
Definition completeCallback (callback : option Callback) (err : option Err) : M unit :=
  exec teardown;
  do returned <-
    match err with
    | Some e =>
        match callback with
        | Some cb => exec effect (CallbackCall cb err); ret true
        | None => exec emit (EvError e); ret false
        end
    | None => ret false
    end;
  if returned : bool then ret tt else
  exec match callback with
      | Some cb => effect (CallbackCall cb err)
      | None => ret tt
      end;
  emit EvEnd.

(** A call of the closure variable [complete]. *)
Definition call_complete (err : option Err) : M unit :=
  do s <- get;
  match complete s with
  | Some callback => completeCallback callback err
  | None => throw (TypeError "complete is not a function")
  end.

Definition no_executable_process : Err :=
  {| message := "definition <" +:+ def_id definition +:+ "> has no executable process" |}.

Definition execute (callback : option Callback) : M unit :=
  exec modify (set_complete (Some callback));
  match warnings definition with
  | w :: _ => call_complete (Some w)
  | [] =>
      match processes definition with
      | [] => call_complete None
      | _ :: _ =>
          if negb (truthy (entryPointId definition))
          then call_complete (Some no_executable_process)
          else
            exec setup;
            match mainProcess with
            | Some p => effect (ProcessRun p)
            | None => throw (TypeError "Cannot read property 'run' of undefined")
            end
      end
  end.

Definition resume (state : SavedState) (callback : option Callback) : M unit :=
  exec modify (set_complete (Some callback));
  match warnings definition with
  | w :: _ => call_complete (Some w)
  | [] =>
      match processes definition with
      | [] => call_complete None
      | _ :: _ =>
          exec setup;
          forEach (fun p => effect (ProcessResume p (state_processes state !! p_id p)))
                  (processes definition)
      end
  end.

Definition getRunningStatus (s : State) : RunningStatus :=
  if Nat.eqb (length (running s)) 0 && Nat.eqb (length (completed s)) 0
  then StatusPending
  else if negb (Nat.eqb (length (running s)) 0) then StatusRunning else StatusCompleted.

Definition getState (s : State) : ExecutionState :=
  let add (states : gmap string ProcessState) (pe : ProcessExecution) :=
    let processState := pe_getState pe in
    <[ps_id processState := processState]> states in
  {| es_state := getRunningStatus s;
     es_entryPointId := entryPointId definition;
     es_stopped := if stopped s then Some true else None;
     es_processes := foldl add (foldl add ∅ (running s)) (completed s) |}.

Definition getRunningIndexById (processId : string) (s : State) : Z :=
  findIndex (fun p => bool_decide (pe_id p = processId)) (running s).

Definition getProcessById (processId : string) : option Process :=
  List.find (fun p => bool_decide (p_id p = processId)) (processes definition).

Definition onEnter (processExecution : ProcessExecution) : M unit :=
  exec modify (fun s => set_running (running s ++ [processExecution]) s);
  do s <- get;
  exec (if entered s then ret tt else emit EvEnter);
  modify (set_entered true).

Definition onStart : M unit :=
  do s <- get;
  exec (if started s then ret tt else emit EvStart);
  modify (set_started true).

Definition sendMessage (targetProcessId : string) (m : Message) : M unit :=
  do s <- get;
  let runningIndex := getRunningIndexById targetProcessId s in
  match at_index (running s) runningIndex with
  | Some pe => effect (ProcessSendMessage pe m)
  | None => throw (TypeError "Cannot read property 'sendMessage' of undefined")
  end.

(** [setImmediate(sendMessage, targetProcessId, message)]. *)
Definition setImmediate (targetProcessId : string) (m : Message) : M unit :=
  modify (fun s => set_immediates (immediates s ++ [(targetProcessId, m)]) s).

Definition onMessage (m : Message) : M unit :=
  match getTargetProcess definition (via_targetId m) with
  | None => throw (TypeError "Cannot read property 'id' of undefined")
  | Some targetElement_id =>
      do s <- get;
      let runningIndex := getRunningIndexById targetElement_id s in
      let targetProcess := getProcessById targetElement_id in
      if runningIndex =? -1 then
        match targetProcess with
        | Some p => exec effect (ProcessRun p); setImmediate targetElement_id m
        | None => throw (TypeError "Cannot read property 'run' of undefined")
        end
      else sendMessage targetElement_id m
  end.

Definition onEnd (processExecution : ProcessExecution) : M unit :=
  do s <- get;
  let runningIndex := findIndex (fun p => bool_decide (p = processExecution)) (running s) in
  exec (if -1 <? runningIndex then
         exec match at_index (running s) runningIndex with
             | Some p => modify (fun s => set_completed (completed s ++ [p]) s)
             | None => ret tt  (* not reached: a found index is inside the list *)
             end;
         exec modify (fun s => set_running (splice1 runningIndex (running s)) s);
         effect (AssignResult (pe_getOutput processExecution))
       else ret tt);
  do s <- get;
  match running s with
  | [] => call_complete None
  | _ :: _ => ret tt
  end.

Definition onError (error : Err) : M unit :=
  exec teardown;
  call_complete (Some error).

(** The loop of [signal]: [answer pe] is the truthiness of what
    [running[i].signal(...args)] returns. *)
Fixpoint signal_loop (args : list string) (answer : ProcessExecution -> bool)
         (l : list ProcessExecution) : M JsValue :=
  match l with
  | [] => ret undefined
  | pe :: l' =>
      exec effect (ProcessSignal pe args);
      if answer pe then ret (JsBool true) else signal_loop args answer l'
  end.

Definition signal (args : list string) (answer : ProcessExecution -> bool) : M JsValue :=
  do s <- get;
  signal_loop args answer (running s).

Definition stop : M unit :=
  exec modify (set_stopped true);
  do s <- get;
  exec forEach (fun pe => effect (ProcessStop pe)) (running s);
  call_complete None.

(** [getChildState(childId)]: [childState pe childId] is what
    [pe.getChildState(childId)] answers, [None] for a falsy answer. *)
Definition getChildState {A} (childState : ProcessExecution -> string -> option A)
           (childId : string) (s : State) : option A :=
  match first_truthy (fun pe => childState pe childId) (running s) with
  | Some state => Some state
  | None => first_truthy (fun pe => childState pe childId) (completed s)
  end.

(** [getPendingActivities()]: [pending pe] is what
    [pe.getPendingActivities()] answers. *)
Definition getPendingActivities {A} (pending : ProcessExecution -> ConcatArg A)
           (s : State) : PendingActivities A :=
  {| pa_state := getRunningStatus s;
     pa_children := foldl (fun l pe => concat_arg l (pending pe)) [] (running s) |}.

(** The listener [setup] registers for each process event. *)
Definition listener (ev : ProcessEvent) : M unit :=
  match ev with
  | PEnter pe => onEnter pe
  | PStart => onStart
  | PMessage m => onMessage m
  | PEnd pe => onEnd pe
  | PError err => onError err
  end.

End WithDefinition.
End DefinitionExecution.

(** ** DefinitionInstance *)

(** What [getState()] of the definition returns (the moddle context and the
    environment snapshot left out): the execution's properties are assigned
    over the definition's own when there is an execution. *)
Record DefinitionState := {
  ds_id : string;
  ds_type : string;
  ds_state : RunningStatus;
  ds_entryPointId : option string;
  ds_stopped : option bool;
  ds_processes : option (gmap string ProcessState)
}.

Module DefinitionInstance.
Section WithDefinition.
Variable definition : DefinitionApi.

(** [definitionExecution = DefinitionExecution(definitionApi)]: fresh
    closure variables, no listener registered yet. *)
Definition new_DefinitionExecution (s : State) : State :=
  {| definitionExecution := true; complete := None;
     entered := false; started := false; stopped := false;
     completed := []; running := []; listening := false;
     immediates := immediates s; trace := trace s |}.

Definition execute (callback : option Callback) : M unit :=
  exec modify new_DefinitionExecution;
  DefinitionExecution.execute definition callback.

Definition resume (state : SavedState) (callback : option Callback) : M unit :=
  match warnings definition with
  | w :: _ =>
      match callback with
      | None => DefinitionExecution.emit definition (EvError w)
      | Some cb => effect (CallbackCall cb (Some w))
      end
  | [] =>
      exec modify new_DefinitionExecution;
      DefinitionExecution.resume definition state callback
  end.

Definition stop : M unit :=
  do s <- get;
  if definitionExecution s then DefinitionExecution.stop definition else ret tt.

Definition signal (args : list string) (answer : ProcessExecution -> bool) : M JsValue :=
  do s <- get;
  if definitionExecution s then DefinitionExecution.signal args answer else ret undefined.

Definition getState (s : State) : DefinitionState :=
  if definitionExecution s then
    let e := DefinitionExecution.getState definition s in
    {| ds_id := def_id definition; ds_type := "bpmn:Definition";
       ds_state := es_state e; ds_entryPointId := es_entryPointId e;
       ds_stopped := es_stopped e; ds_processes := Some (es_processes e) |}
  else
    {| ds_id := def_id definition; ds_type := "bpmn:Definition";
       ds_state := StatusPending; ds_entryPointId := None;
       ds_stopped := None; ds_processes := None |}.

Definition getChildState {A} (childState : ProcessExecution -> string -> option A)
           (childId : string) (s : State) : option A :=
  if definitionExecution s
  then DefinitionExecution.getChildState childState childId s
  else None.

Definition getPendingActivities {A} (pending : ProcessExecution -> ConcatArg A)
           (s : State) : PendingActivities A :=
  if definitionExecution s
  then DefinitionExecution.getPendingActivities pending s
  else {| pa_state := StatusPending; pa_children := [] |}.

End WithDefinition.
End DefinitionInstance.

(** ** The run as a machine *)

(** What happens to a Definition after [execute] or [resume]: a process
    emits one of its events, the user calls [signal] or [stop], or the event
    loop runs the oldest pending [setImmediate] callback. *)
Inductive Input :=
| ProcessEmits (ev : ProcessEvent)
| Signal (args : list string) (answer : ProcessExecution -> bool)
| Stop
| Immediate.

Section Machine.
Variable definition : DefinitionApi.

Definition handle (i : Input) : M unit :=
  match i with
  | ProcessEmits ev =>
      do s <- get;
      if listening s then DefinitionExecution.listener definition ev else ret tt
  | Signal args answer =>
      do _ <- DefinitionInstance.signal args answer; ret tt
  | Stop => DefinitionInstance.stop definition
  | Immediate =>
      do s <- get;
      match immediates s with
      | [] => ret tt
      | (targetProcessId, m) :: q =>
          exec modify (set_immediates q);
          DefinitionExecution.sendMessage targetProcessId m
      end
  end.

(** One input; an exception nobody catches is recorded and the state it
    left behind stays. *)
Definition step (s : State) (i : Input) : State :=
  match handle i s with
  | Returned _ s' => s'
  | Threw e s' => add_trace (Uncaught e) s'
  end.

Definition steps (s : State) (inputs : list Input) : State := foldl step s inputs.

(** [definition.execute(callback)] on a new definition, then the inputs. *)
Definition run_execute (callback : option Callback) (inputs : list Input) : State :=
  steps (match DefinitionInstance.execute definition callback initial with
         | Returned _ s => s
         | Threw e s => add_trace (Uncaught e) s
         end) inputs.

(** [definition.resume(state, callback)] on a new definition, then the inputs. *)
Definition run_resume (state : SavedState) (callback : option Callback)
           (inputs : list Input) : State :=
  steps (match DefinitionInstance.resume definition state callback initial with
         | Returned _ s => s
         | Threw e s => add_trace (Uncaught e) s
         end) inputs.

End Machine.

(** ** Multi-instance loops *)

(** Modelled from the spec: the code of the Activity and of its loop
    controller is missing, only their tests are at hand.  The module follows
    the spec's LoopController (sections 3 and 4.2): one ExecutionContext per
    item, spawned one after the other in sequential mode and all at loop
    entry in parallel mode, each with a result slot fixed at spawn time. *)
Module LoopController.

(** How an ExecutionContext came to be: the single run of an activity, or
    iteration [index] of a sequential or of a parallel multi-instance loop. *)
Inductive Activation :=
| Singular
| SequentialIteration (index : nat)
| ParallelIteration (index : nat).

(** Modelled from the spec: the Activity and loop code that names
    ExecutionContexts is missing.  A singular run
    carries the Activity id and a parallel iteration the Activity id with
    the index suffixed, in the spec's words.  For a sequential iteration the
    repository's tests decide: "emits wait with the same id" and "emits
    start with the same id" expect the Activity id itself for each of the
    three iterations. *)
Definition executionContextId (activityId : string) (a : Activation) : string :=
  match a with
  | Singular => activityId
  | SequentialIteration _ => activityId
  | ParallelIteration index => activityId +:+ "_" +:+ pretty index
  end.

Section Loop.
Variables Item Result : Type.

(** Events of the activity during a loop: [wait] of an iteration, and
    [end] of an iteration ([isLoopContext]) or of the activity. *)
Inductive ActivityEvent :=
| wait (contextId : string) (index : nat) (item : Item)
| end_ (contextId : string) (isLoopContext : bool).

(** Modelled from the spec: the LoopState of a multi-instance activity
    (the code of the loop controller is missing).
    [completedResults] has one slot per item, fixed at spawn time and
    empty until that iteration completes; [spawned] counts the
    ExecutionContexts created so far; [output] is the aggregate, set when
    the last iteration has ended. *)
Record LoopState := {
  activityId : string;
  isSequential : bool;
  items : list Item;
  completedResults : list (option Result);
  spawned : nat;
  events : list ActivityEvent;
  output : option (list Result)
}.

Definition iteration (st : LoopState) (index : nat) : Activation :=
  if isSequential st then SequentialIteration index else ParallelIteration index.

Definition contextId (st : LoopState) (index : nat) : string :=
  executionContextId (activityId st) (iteration st index).

(** The results in slot order, once every slot is filled. *)
Fixpoint collect (slots : list (option Result)) : option (list Result) :=
  match slots with
  | [] => Some []
  | None :: _ => None
  | Some r :: slots' =>
      match collect slots' with
      | Some rs => Some (r :: rs)
      | None => None
      end
  end.

(** Modelled from the spec: spawning the ExecutionContext of item
    [index] emits its [wait]. *)
Definition spawn (st : LoopState) (index : nat) : LoopState :=
  match items st !! index with
  | Some item =>
      {| activityId := activityId st; isSequential := isSequential st;
         items := items st; completedResults := completedResults st;
         spawned := S (spawned st);
         events := events st ++ [wait (contextId st index) index item];
         output := output st |}
  | None => st
  end.

(** Modelled from the spec: the activity's own [end] fires once, after
    the last ExecutionContext has ended, with the aggregate output. *)
Definition complete (st : LoopState) : LoopState :=
  match output st, collect (completedResults st) with
  | None, Some results =>
      {| activityId := activityId st; isSequential := isSequential st;
         items := items st; completedResults := completedResults st;
         spawned := spawned st;
         events := events st ++ [end_ (activityId st) false];
         output := Some results |}
  | _, _ => st
  end.

(** Modelled from the spec: loop entry.  Sequential mode spawns the
    first ExecutionContext, parallel mode all of them. *)
Definition run (id : string) (sequential : bool) (its : list Item) : LoopState :=
  let st := {| activityId := id; isSequential := sequential; items := its;
               completedResults := replicate (length its) None;
               spawned := 0; events := []; output := None |} in
  complete (if sequential then spawn st 0
            else foldl spawn st (seq 0 (length its))).

(** The ExecutionContext of [index] was spawned and has not ended. *)
Definition waiting (st : LoopState) (index : nat) : bool :=
  bool_decide (index < spawned st)%nat &&
  match completedResults st !! index with
  | Some None => true
  | _ => false
  end.

(** Modelled from the spec: [signal(value)] on the waiting
    ExecutionContext of [index] ends that iteration, puts its result in
    its slot, and in sequential mode spawns the next one. *)
Definition signal (st : LoopState) (index : nat) (value : Result) : LoopState :=
  if waiting st index then
    let st1 :=
      {| activityId := activityId st; isSequential := isSequential st;
         items := items st;
         completedResults := <[index := Some value]> (completedResults st);
         spawned := spawned st;
         events := events st ++ [end_ (contextId st index) true];
         output := output st |} in
    complete (if isSequential st then spawn st1 (S index) else st1)
  else st.

(** Signals arriving in the given order, context [i] getting [value i]. *)
Definition signals (value : nat -> Result) (order : list nat) (st : LoopState) : LoopState :=
  foldl (fun st i => signal st i (value i)) st order.

(** The context ids of the [wait] events, in emission order. *)
Definition wait_ids (evs : list ActivityEvent) : list string :=
  omap (fun e => match e with wait id _ _ => Some id | _ => None end) evs.

End Loop.

Arguments wait {Item} contextId index item.
Arguments end_ {Item} contextId isLoopContext.
Arguments activityId {Item Result} _.
Arguments isSequential {Item Result} _.
Arguments items {Item Result} _.
Arguments completedResults {Item Result} _.
Arguments spawned {Item Result} _.
Arguments events {Item Result} _.
Arguments output {Item Result} _.
Arguments collect {Result} slots.
Arguments spawn {Item Result} st index.
Arguments complete {Item Result} st.
Arguments run {Item} Result id sequential its.
Arguments waiting {Item Result} st index.
Arguments signal {Item Result} st index value.
Arguments signals {Item Result} value order st.
Arguments wait_ids {Item} evs.
Arguments contextId {Item Result} st index.

End LoopController.

(** ** Reading traces *)

(** A call into a Process object. *)
Definition is_process_call (a : Action) : bool :=
  match a with
  | ProcessRun _ | ProcessResume _ _ | ProcessSignal _ _
  | ProcessSendMessage _ _ | ProcessStop _ => true
  | _ => false
  end.


Definition is_error_event (a : Action) : bool :=
  match a with
  | Emit (EvError _) => true
  | _ => false
  end.

Definition same_event (a b : DefinitionEvent) : bool :=
  match a, b with
  | EvEnter, EvEnter | EvStart, EvStart | EvEnd, EvEnd => true
  | EvError e1, EvError e2 => bool_decide (e1 = e2)
  | _, _ => false
  end.

(** How often the definition emitted [ev]. *)
Definition emitted (ev : DefinitionEvent) (tr : list Action) : nat :=
  length (List.filter (fun a => match a with
                                | Emit ev' => same_event ev' ev
                                | _ => false
                                end) tr).

(** The outputs handed to [environment.assignResult], in order. *)
Definition assigned (tr : list Action) : list Output :=
  omap (fun a => match a with AssignResult o => Some o | _ => None end) tr.

(** The actions [s'] has on top of [s]. *)
Definition added (s s' : State) : list Action := drop (length (trace s)) (trace s').

(** The flag [entered] (or [started]) records that the event went out: while
    it is unset the event was never emitted, and it is emitted once at most. *)
Definition at_most_once (ev : DefinitionEvent) (flag : State -> bool) (s : State) : Prop :=
  (flag s = false -> emitted ev (trace s) = 0%nat) /\ (emitted ev (trace s) <= 1)%nat.

Definition enter_start_once (s : State) : Prop :=
  at_most_once EvEnter entered s /\ at_most_once EvStart started s.


(** The id of iteration [i] of a parallel loop over activity [id]. *)
Definition parallel_id (id : string) (i : nat) : string :=
  LoopController.executionContextId id (LoopController.ParallelIteration i).

(** The slots of a parallel loop of cardinality [C] once the iterations in
    [done] have been signalled, iteration [i] with [value i]. *)
Definition slots_of {Result} (C : nat) (value : nat -> Result) (done : gset nat)
  : list (option Result) :=
  (fun i => if bool_decide (i ∈ done) then Some (value i) else None) <$> seq 0 C.

(** A parallel loop over [its] in which exactly the iterations in [done]
    have ended. *)
Definition parallel_loop_at {Item Result} (id : string) (its : list Item)
           (value : nat -> Result) (done : gset nat)
           (st : LoopController.LoopState Item Result) : Prop :=
  LoopController.activityId st = id /\
  LoopController.isSequential st = false /\
  LoopController.spawned st = length its /\
  LoopController.completedResults st = slots_of (length its) value done /\
  LoopController.wait_ids (LoopController.events st) = parallel_id id <$> seq 0 (length its) /\
  LoopController.output st = LoopController.collect (LoopController.completedResults st).

(** How often the completion callback was called, and how often the
    definition emitted [error]. *)
Definition is_callback_call (a : Action) : bool :=
  match a with
  | CallbackCall _ _ => true
  | _ => false
  end.

Definition count (f : Action -> bool) (tr : list Action) : nat :=
  length (List.filter f tr).

(** While the listeners are on the processes the run has not completed, and
    it completes once at most: one call of the callback, one [end] event,
    one [error] event. *)
Definition completes_once (s : State) : Prop :=
  (listening s = true ->
   count is_callback_call (trace s) = 0%nat /\
   emitted EvEnd (trace s) = 0%nat /\
   count is_error_event (trace s) = 0%nat) /\
  (count is_callback_call (trace s) <= 1)%nat /\
  (emitted EvEnd (trace s) <= 1)%nat /\
  (count is_error_event (trace s) <= 1)%nat.

(** Where the calls into the processes come from, given the inputs [seen] so
    far: a running execution has entered; a queued message and a message
    handed over were emitted by a process and go to the process that owns
    their target; a process that was run is the executable one or such an
    owner. *)
Definition message_from (definition : DefinitionApi) (seen : list Input)
           (m : Message) (owner : string) : Prop :=
  In (ProcessEmits (PMessage m)) seen /\
  getTargetProcess definition (via_targetId m) = Some owner.

Definition provenance (definition : DefinitionApi) (seen : list Input) (s : State) : Prop :=
  (forall pe, In pe (running s) -> In (ProcessEmits (PEnter pe)) seen) /\
  (forall t m, In (t, m) (immediates s) -> message_from definition seen m t) /\
  (forall pe m, In (ProcessSendMessage pe m) (trace s) ->
     message_from definition seen m (pe_id pe) /\
     In (ProcessEmits (PEnter pe)) seen) /\
  (forall p, In (ProcessRun p) (trace s) ->
     In p (processes definition) /\
     (Some (p_id p) = entryPointId definition \/
      exists m, message_from definition seen m (p_id p))).

(** Sample definitions used to run the code on concrete inputs. *)
Module Samples.

Definition order : Process := {| p_id := "order" |}.
Definition billing : Process := {| p_id := "billing" |}.

(** One process, none executable, an ['error'] listener on the definition. *)
Definition no_entry : DefinitionApi :=
  {| def_id := "sales"; entryPointId := None; warnings := [];
     processes := [order]; getTargetProcess := fun _ => None;
     errorListener := true |}.

(** One process, none executable, and the moddle context came with a
    warning. *)
Definition warned_no_entry : DefinitionApi :=
  {| def_id := "sales"; entryPointId := None;
     warnings := [ {| message := "unresolved reference" |} ];
     processes := [order]; getTargetProcess := fun _ => None;
     errorListener := true |}.

(** No process at all. *)
Definition empty : DefinitionApi :=
  {| def_id := "sales"; entryPointId := None; warnings := [];
     processes := []; getTargetProcess := fun _ => None;
     errorListener := true |}.

(** Two processes, [order] executable, messages go to [billing]. *)
Definition sales : DefinitionApi :=
  {| def_id := "sales"; entryPointId := Some "order"; warnings := [];
     processes := [order; billing]; getTargetProcess := fun _ => Some "billing";
     errorListener := true |}.

(** The moddle context came with a warning. *)
Definition warned : DefinitionApi :=
  {| def_id := "sales"; entryPointId := Some "order";
     warnings := [ {| message := "unresolved reference" |} ];
     processes := [order; billing]; getTargetProcess := fun _ => Some "billing";
     errorListener := true |}.

Definition orderExecution : ProcessExecution :=
  {| pe_ref := 1; pe_id := "order"; pe_getOutput := [("ordered", "yes")];
     pe_getState := {| ps_id := "order"; ps_body := "entered" |} |}.

Definition billingExecution : ProcessExecution :=
  {| pe_ref := 2; pe_id := "billing"; pe_getOutput := [("billed", "yes")];
     pe_getState := {| ps_id := "billing"; ps_body := "entered" |} |}.

(** A second execution of [billing], of a later run of the process. *)
Definition billingRerun : ProcessExecution :=
  {| pe_ref := 3; pe_id := "billing"; pe_getOutput := [("billed", "twice")];
     pe_getState := {| ps_id := "billing"; ps_body := "entered again" |} |}.

Definition invoice : Message :=
  {| via_id := "flow"; via_sourceId := "send"; via_targetId := "receive" |}.

Definition saved : SavedState := {| state_processes := ∅ |}.

(** [billing] is spun up by a message, ends, and is spun up again by a
    second message: [order] and the second execution of [billing] are
    running, the first execution of [billing] is completed. *)
Definition billed_twice : State :=
  run_execute sales None
    [ProcessEmits (PEnter orderExecution);
     ProcessEmits (PMessage invoice);
     ProcessEmits (PEnter billingExecution);
     Immediate;
     ProcessEmits (PEnd billingExecution);
     ProcessEmits (PMessage invoice);
     ProcessEmits (PEnter billingRerun);
     Immediate].

End Samples.

(** ** Properties *)

(** Every action a handler performs is appended: the trace only grows. *)
Lemma added_app (s s' : State) (l : list Action) :
  trace s' = trace s ++ l -> added s s' = l.
Proof.
  intros H. unfold added. rewrite H. by rewrite drop_app_length.
Qed.

(** Unfolding the handlers down to the state they return. *)
Ltac unfold_code :=
  cbv beta iota zeta delta
    [bind ret throw get modify effect
     DefinitionInstance.execute DefinitionInstance.resume
     DefinitionInstance.stop DefinitionInstance.signal
     DefinitionExecution.execute DefinitionExecution.resume
     DefinitionExecution.emit DefinitionExecution.setup
     DefinitionExecution.teardown DefinitionExecution.completeCallback
     DefinitionExecution.call_complete DefinitionExecution.onEnter
     DefinitionExecution.onStart DefinitionExecution.onMessage
     DefinitionExecution.onEnd DefinitionExecution.onError
     DefinitionExecution.sendMessage DefinitionExecution.setImmediate
     DefinitionExecution.signal DefinitionExecution.stop
     DefinitionExecution.listener handle step].

(** Reading a field of an updated state. *)
Ltac simpl_state :=
  cbv [set_definitionExecution set_complete set_entered set_started set_stopped
       set_completed set_running set_listening set_immediates add_trace log];
  cbn.

Ltac simpl_added :=
  unfold added in *; cbn in *;
  rewrite <- ?List.app_assoc, ?drop_app_length; cbn.

Lemma log_nil (s : State) : log [] s = s.
Proof. destruct s; unfold log; cbn. by rewrite List.app_nil_r. Qed.

Lemma log_log (l1 l2 : list Action) (s : State) :
  log l2 (log l1 s) = log (l1 ++ l2) s.
Proof. unfold log; cbn. by rewrite List.app_assoc. Qed.

Lemma add_trace_log (a : Action) (s : State) : add_trace a s = log [a] s.
Proof. reflexivity. Qed.

Lemma added_log (l : list Action) (s : State) : added s (log l s) = l.
Proof. by apply added_app. Qed.

(** [forEach] over calls that only leave an action in the trace. *)
Lemma forEach_effect {A} (f : A -> Action) (l : list A) (s : State) :
  forEach (fun x s => Returned tt (add_trace (f x) s)) l s =
    Returned tt (log (map f l) s).
Proof.
  revert s. induction l as [|x l IH]; intros s; cbn.
  - by rewrite log_nil.
  - cbv [bind]. rewrite IH, add_trace_log, log_log. reflexivity.
Qed.

Lemma emitted_app (ev : DefinitionEvent) (l1 l2 : list Action) :
  emitted ev (l1 ++ l2) = (emitted ev l1 + emitted ev l2)%nat.
Proof. unfold emitted. by rewrite List.filter_app, length_app. Qed.


(** [findIndex] answers -1 or an index inside the list, the first one whose
    element satisfies the test. *)
Lemma findIndexFrom_spec {A} (f : A -> bool) (l : list A) (i : Z) :
  0 <= i ->
  (findIndexFrom f i l = -1 /\ forallb (fun x => negb (f x)) l = true) \/
  (exists l1 x l2, l = l1 ++ x :: l2 /\ forallb (fun x => negb (f x)) l1 = true /\
                   f x = true /\ findIndexFrom f i l = i + Z.of_nat (length l1)).
Proof.
  revert i. induction l as [|x l IH]; intros i Hi; cbn.
  - left. auto.
  - destruct (f x) eqn:Hx.
    + right. exists [], x, l. cbn. repeat split; auto. lia.
    + destruct (IH (i + 1)) as [[H1 H2]|(l1 & y & l2 & -> & H1 & H2 & H3)]; [lia| |].
      * left. auto.
      * right. exists (x :: l1), y, l2. cbn. rewrite Hx. cbn.
        repeat split; auto. rewrite H3. lia.
Qed.

Lemma findIndex_cases {A} (f : A -> bool) (l : list A) :
  (findIndex f l = -1 /\ forallb (fun x => negb (f x)) l = true) \/
  (exists l1 x l2, l = l1 ++ x :: l2 /\ forallb (fun x => negb (f x)) l1 = true /\
                   f x = true /\ findIndex f l = Z.of_nat (length l1)).
Proof.
  unfold findIndex.
  destruct (findIndexFrom_spec f l 0) as [?|(l1 & x & l2 & ? & ? & ? & ?)]; [lia|by left|].
  right. exists l1, x, l2. repeat split; auto.
Qed.

Lemma findIndex_range {A} (f : A -> bool) (l : list A) :
  findIndex f l = -1 \/ 0 <= findIndex f l < Z.of_nat (length l).
Proof.
  destruct (findIndex_cases f l) as [[? _]|(l1 & x & l2 & -> & _ & _ & ->)]; [by left|right].
  rewrite length_app. cbn. lia.
Qed.

Lemma at_index_app {A} (l1 l2 : list A) (x : A) :
  at_index (l1 ++ x :: l2) (Z.of_nat (length l1)) = Some x.
Proof.
  unfold at_index. destruct (Z.ltb_spec (Z.of_nat (length l1)) 0); [lia|].
  rewrite Nat2Z.id. by rewrite list_lookup_middle.
Qed.

Lemma splice1_app {A} (l1 l2 : list A) (x : A) :
  splice1 (Z.of_nat (length l1)) (l1 ++ x :: l2) = l1 ++ l2.
Proof.
  unfold splice1. rewrite Nat2Z.id.
  induction l1 as [|y l1 IH]; cbn; [done|]. by f_equal.
Qed.

(** *** C1 *)

(** C1, as stated, fails on two kinds of graph model without an executable
    entry process.  One without any process is completed by [execute]
    without an error: the callback is called with no error and [end] is
    emitted.  One that came with a validation warning fails with that
    warning, which is not the error [definition <id> has no executable
    process]. *)
Lemma execute_without_entry_process_other_outcomes :
  (entryPointId Samples.empty = None /\
   trace (run_execute Samples.empty (Some 7%nat) []) =
     [CallbackCall 7%nat None; Emit EvEnd]) /\
  (entryPointId Samples.warned_no_entry = None /\
   trace (run_execute Samples.warned_no_entry (Some 7%nat) []) =
     [CallbackCall 7%nat (Some {| message := "unresolved reference" |})] /\
   {| message := "unresolved reference" |} <>
     DefinitionExecution.no_executable_process Samples.warned_no_entry).
Proof. repeat split; try reflexivity. discriminate. Qed.

(** C1, amended: what [execute] does with a graph model it does not run.
    When the model has a process, no warning and no executable entry
    process, [execute] runs no Process, registers no listener, and delivers
    the error [definition <id> has no executable process]: the completion
    callback is called with it and nothing else happens, or, without a
    callback, the first thing that happens is the [error] event carrying it.
    When the model has no warning and no process, [execute] completes at
    once without an error: the callback, if any, is called without error and
    [end] is emitted, nothing else.  When the model has a warning, whatever
    its processes and its entry process, [execute] fails in the same way as
    in the first case, with the first warning as the error. *)
Theorem execute_without_entry_process
  (definition : DefinitionApi) (callback : option Callback) (s : State) :
  let err := DefinitionExecution.no_executable_process definition in
  let s' := state_of (DefinitionInstance.execute definition callback s) in
  (warnings definition = [] ->
   processes definition <> [] ->
   truthy (entryPointId definition) = false ->
   (forall a, In a (added s s') -> is_process_call a = false) /\
   listening s' = false /\
   running s' = [] /\
   match callback with
   | Some cb => added s s' = [CallbackCall cb (Some err)]
   | None => exists rest, added s s' = Emit (EvError err) :: rest
   end) /\
  (warnings definition = [] ->
   processes definition = [] ->
   listening s' = false /\
   running s' = [] /\
   added s s' = match callback with
                | Some cb => [CallbackCall cb None; Emit EvEnd]
                | None => [Emit EvEnd]
                end) /\
  (forall w ws,
   warnings definition = w :: ws ->
   (forall a, In a (added s s') -> is_process_call a = false) /\
   listening s' = false /\
   running s' = [] /\
   match callback with
   | Some cb => added s s' = [CallbackCall cb (Some w)]
   | None => exists rest, added s s' = Emit (EvError w) :: rest
   end).
Proof.
  intros err s'. subst s' err. split; [|split].
  - intros Hw Hp He.
    destruct (processes definition) as [|p ps] eqn:Eps; [done|].
    unfold_code. rewrite Hw, Eps, He. cbn.
    destruct callback as [cb|]; [|destruct (errorListener definition)];
      simpl_added; repeat split; eauto.
    + intros a [<-|[]]; reflexivity.
    + intros a [<-|[<-|[]]]; reflexivity.
    + intros a [<-|[]]; reflexivity.
  - intros Hw Hp. unfold_code. rewrite Hw, Hp. cbn.
    destruct callback as [cb|]; simpl_added; repeat split.
  - intros w ws Hw. unfold_code. rewrite Hw. cbn.
    destruct callback as [cb|]; [|destruct (errorListener definition)];
      simpl_added; repeat split; eauto.
    + intros a [<-|[]]; reflexivity.
    + intros a [<-|[<-|[]]]; reflexivity.
    + intros a [<-|[]]; reflexivity.
Qed.

Lemma execute_without_entry_process_witness :
  added initial
        (state_of (DefinitionInstance.execute Samples.no_entry (Some 7%nat) initial)) =
    [CallbackCall 7%nat
       (Some {| message := "definition <sales> has no executable process" |})] /\
  added initial
        (state_of (DefinitionInstance.execute Samples.empty None initial)) =
    [Emit EvEnd] /\
  added initial
        (state_of (DefinitionInstance.execute Samples.warned (Some 7%nat) initial)) =
    [CallbackCall 7%nat (Some {| message := "unresolved reference" |})].
Proof.
  split; [|split].
  - apply (proj1 (execute_without_entry_process Samples.no_entry (Some 7%nat) initial));
      [reflexivity | discriminate | reflexivity].
  - apply (proj1 (proj2 (execute_without_entry_process Samples.empty None initial)));
      reflexivity.
  - apply (proj2 (proj2 (execute_without_entry_process Samples.warned (Some 7%nat) initial))
             {| message := "unresolved reference" |} []).
    reflexivity.
Defined.

(** *** C2 *)

(** C2: when the validation of the graph model left a warning, [resume]
    of the definition does one thing only: it hands the first warning to the
    callback, or, without a callback, emits it as the [error] event.  No
    execution is created, no listener is registered, no Process is resumed. *)
Theorem resume_with_warnings
  (definition : DefinitionApi) (state : SavedState) (callback : option Callback)
  (s : State) (w : Err) (ws : list Err) :
  warnings definition = w :: ws ->
  let s' := state_of (DefinitionInstance.resume definition state callback s) in
  s' = add_trace (match callback with
                  | Some cb => CallbackCall cb (Some w)
                  | None => Emit (EvError w)
                  end) s /\
  (forall a, In a (added s s') -> is_process_call a = false).
Proof.
  intros Hw s'. subst s'. unfold_code. rewrite Hw.
  destruct callback as [cb|]; [|destruct (errorListener definition)]; cbn;
    (split; [reflexivity|]); rewrite add_trace_log, added_log;
    intros a [<-|[]]; reflexivity.
Qed.

Lemma resume_with_warnings_witness :
  state_of (DefinitionInstance.resume Samples.warned Samples.saved None initial) =
    add_trace (Emit (EvError {| message := "unresolved reference" |})) initial.
Proof.
  apply (resume_with_warnings Samples.warned Samples.saved None initial
           {| message := "unresolved reference" |} []).
  reflexivity.
Defined.

(** The execution's own [resume] has the same guard: with a warning it
    completes with it and resumes nothing. *)
Lemma execution_resume_with_warnings
  (definition : DefinitionApi) (state : SavedState) (callback : option Callback)
  (s : State) (w : Err) (ws : list Err) :
  warnings definition = w :: ws ->
  forall a, In a (added s (state_of (DefinitionExecution.resume definition state callback s))) ->
            is_process_call a = false.
Proof.
  intros Hw. unfold_code. rewrite Hw. cbn.
  destruct callback as [cb|]; [|destruct (errorListener definition)];
    simpl_added; intros a Ha; repeat destruct Ha as [<-|Ha]; try done.
Qed.

(** *** C7 *)

(** With a callback the failure is reported once, through the callback, and
    no event is emitted. *)
Lemma completeCallback_error_with_callback
  (definition : DefinitionApi) (cb : Callback) (e : Err) (s : State) :
  DefinitionExecution.completeCallback definition (Some cb) (Some e) s =
    Returned tt (add_trace (CallbackCall cb (Some e)) (set_listening false s)).
Proof. reflexivity. Qed.

(** C7, where the code departs from it: without a callback and with a
    listener for [error] on the definition, a failed run emits [error] and
    then [end].  Seen here on a definition without executable process, and on
    a process that emits [error] while running. *)
Lemma failed_run_without_callback_emits_end :
  trace (run_execute Samples.no_entry None []) =
    [Emit (EvError {| message := "definition <sales> has no executable process" |});
     Emit EvEnd] /\
  trace (run_execute Samples.sales None
           [ProcessEmits (PEnter Samples.orderExecution);
            ProcessEmits (PError {| message := "boom" |})]) =
    [ProcessRun Samples.order; Emit EvEnter;
     Emit (EvError {| message := "boom" |}); Emit EvEnd].
Proof. split; reflexivity. Qed.

(** *** Steps of the machine *)

Lemma signal_loop_log (args : list string) (answer : ProcessExecution -> bool)
      (l : list ProcessExecution) (s : State) :
  exists v l', DefinitionExecution.signal_loop args answer l s =
               Returned v (log (map (fun pe => ProcessSignal pe args) l') s).
Proof.
  revert s. induction l as [|pe l IH]; intros s; cbn.
  - exists undefined, []. by rewrite log_nil.
  - cbv [bind effect modify ret]. destruct (answer pe).
    + exists (JsBool true), [pe]. reflexivity.
    + destruct (IH (add_trace (ProcessSignal pe args) s)) as (v & l' & ->).
      exists v, (pe :: l'). by rewrite add_trace_log, log_log.
Qed.

Lemma step_stopped (definition : DefinitionApi) (s : State) (i : Input) :
  stopped s = true -> stopped (step definition s i) = true.
Proof.
  intros Hs. destruct i as [ev|args answer| |]; unfold_code.
  - destruct ev; repeat case_match; simplify_eq; cbn; auto.
  - destruct (definitionExecution s); [|done].
    destruct (signal_loop_log args answer (running s) s) as (v & l' & ->). done.
  - destruct (definitionExecution s); [|done].
    rewrite forEach_effect. repeat case_match; simplify_eq; cbn; auto.
  - repeat case_match; simplify_eq; cbn; auto.
Qed.

(** *** C10 *)

Lemma emitted_nil (ev : DefinitionEvent) : emitted ev [] = 0%nat.
Proof. reflexivity. Qed.

Lemma emitted_cons (ev : DefinitionEvent) (a : Action) (l : list Action) :
  emitted ev (a :: l) =
    ((match a with
      | Emit ev' => if same_event ev' ev then 1 else 0
      | _ => 0
      end) + emitted ev l)%nat.
Proof. unfold emitted. cbn. destruct a; try done. by destruct (same_event ev0 ev). Qed.

Lemma emitted_process_calls (ev : DefinitionEvent) (l : list Action) :
  (forall a, In a l -> is_process_call a = true) -> emitted ev l = 0%nat.
Proof.
  induction l as [|a l IH]; intros H; [done|].
  change (a :: l) with ([a] ++ l). rewrite emitted_app, IH.
  - specialize (H a (or_introl eq_refl)). by destruct a.
  - intros b Hb. apply H. by right.
Qed.

Lemma emitted_map (ev : DefinitionEvent) {A} (f : A -> Action) (l : list A) :
  (forall x, is_process_call (f x) = true) -> emitted ev (map f l) = 0%nat.
Proof.
  intros H. apply emitted_process_calls. intros a Ha.
  apply in_map_iff in Ha as (x & <- & _). apply H.
Qed.

Arguments emitted : simpl never.

Ltac count_events :=
  unfold enter_start_once, at_most_once in *; cbn in *;
  repeat first [ rewrite emitted_app | rewrite emitted_map by done
               | rewrite emitted_cons | rewrite emitted_nil ];
  cbn; intuition (try congruence; try lia).

Lemma step_enter_start_once (definition : DefinitionApi) (s : State) (i : Input) :
  enter_start_once s -> enter_start_once (step definition s i).
Proof.
  intros Hs. destruct i as [ev|args answer| |]; unfold_code.
  - destruct ev; repeat case_match; simplify_eq; count_events.
  - destruct (definitionExecution s); [|done].
    destruct (signal_loop_log args answer (running s) s) as (v & l' & ->).
    count_events.
  - destruct (definitionExecution s); [|done].
    rewrite forEach_effect. repeat case_match; simplify_eq; count_events.
  - repeat case_match; simplify_eq; count_events.
Qed.

Lemma steps_enter_start_once (definition : DefinitionApi) (inputs : list Input) (s : State) :
  enter_start_once s -> enter_start_once (steps definition s inputs).
Proof.
  revert s. induction inputs as [|i inputs IH]; intros s Hs; cbn; [done|].
  apply IH. by apply step_enter_start_once.
Qed.

(** C10: in a run started by [execute] or by [resume], whatever the
    processes emit and whatever the user calls afterwards, the definition
    emits [enter] at most once and [start] at most once. *)
Theorem enter_and_start_emitted_at_most_once
  (definition : DefinitionApi) (state : SavedState) (callback : option Callback)
  (inputs : list Input) :
  ((emitted EvEnter (trace (run_execute definition callback inputs)) <= 1)%nat /\
   (emitted EvStart (trace (run_execute definition callback inputs)) <= 1)%nat) /\
  ((emitted EvEnter (trace (run_resume definition state callback inputs)) <= 1)%nat /\
   (emitted EvStart (trace (run_resume definition state callback inputs)) <= 1)%nat).
Proof.
  assert (He : enter_start_once (run_execute definition callback inputs)).
  { apply steps_enter_start_once. unfold_code.
    repeat case_match; simplify_eq; count_events. }
  assert (Hr : enter_start_once (run_resume definition state callback inputs)).
  { apply steps_enter_start_once. unfold_code.
    repeat case_match; simplify_eq; try rewrite forEach_effect in *;
      simplify_eq; count_events. }
  destruct He as [[_ ?] [_ ?]], Hr as [[_ ?] [_ ?]]. auto.
Qed.

(** A second process spun up by a message enters and starts: the definition
    has emitted [enter] and [start] once each. *)
Example second_process_does_not_enter_again :
  let s := run_execute Samples.sales None
             [ProcessEmits (PEnter Samples.orderExecution); ProcessEmits PStart;
              ProcessEmits (PMessage Samples.invoice);
              ProcessEmits (PEnter Samples.billingExecution); ProcessEmits PStart;
              Immediate] in
  running s = [Samples.orderExecution; Samples.billingExecution] /\
  emitted EvEnter (trace s) = 1%nat /\ emitted EvStart (trace s) = 1%nat.
Proof. repeat split; reflexivity. Qed.

(** *** C9 *)

Lemma steps_stopped (definition : DefinitionApi) (inputs : list Input) (s : State) :
  stopped s = true -> stopped (steps definition s inputs) = true.
Proof.
  revert s. induction inputs as [|i inputs IH]; intros s Hs; cbn; [done|].
  apply IH. by apply step_stopped.
Qed.

(** No input replaces the execution or its [complete]. *)
Lemma step_keeps_execution (definition : DefinitionApi) (s : State) (i : Input) :
  definitionExecution (step definition s i) = definitionExecution s /\
  complete (step definition s i) = complete s.
Proof.
  destruct i as [ev|args answer| |]; unfold_code.
  - destruct ev; repeat case_match; simplify_eq; cbn; auto.
  - destruct (definitionExecution s) eqn:E; [|done].
    destruct (signal_loop_log args answer (running s) s) as (v & l' & ->). done.
  - destruct (definitionExecution s) eqn:E; [|done].
    rewrite forEach_effect. repeat case_match; simplify_eq; cbn; auto.
  - repeat case_match; simplify_eq; cbn; auto.
Qed.

Lemma steps_keep_execution (definition : DefinitionApi) (inputs : list Input) (s : State) :
  definitionExecution (steps definition s inputs) = definitionExecution s /\
  complete (steps definition s inputs) = complete s.
Proof.
  revert s. induction inputs as [|i inputs IH]; intros s; [done|].
  change (steps definition s (i :: inputs))
    with (steps definition (step definition s i) inputs).
  destruct (IH (step definition s i)) as [-> ->]. apply step_keeps_execution.
Qed.

(** After [execute] there is an execution, and its [complete] is the one
    made from the callback. *)
Lemma run_execute_has_execution (definition : DefinitionApi)
      (callback : option Callback) (inputs : list Input) :
  definitionExecution (run_execute definition callback inputs) = true /\
  complete (run_execute definition callback inputs) = Some callback.
Proof.
  unfold run_execute.
  match goal with |- context [steps _ ?s0 _] =>
    destruct (steps_keep_execution definition inputs s0) as [-> ->] end.
  unfold_code. repeat case_match; simplify_eq; cbn; auto.
Qed.

(** C9: [stop()] on an execution sets [stopped], calls [stop()] on each
    running process in order, and completes: the callback, when there is one,
    is called without error and [end] is emitted; no [error] event is
    emitted and nothing is thrown.  From then on every [getState()], of the
    execution and of the definition, carries [stopped: true]. *)
Theorem stop_completes_without_error
  (definition : DefinitionApi) (callback : option Callback) (s : State) :
  definitionExecution s = true ->
  complete s = Some callback ->
  let s' := step definition s Stop in
  stopped s' = true /\
  added s s' =
    map ProcessStop (running s) ++
    match callback with Some cb => [CallbackCall cb None] | None => [] end ++
    [Emit EvEnd] /\
  (forall a, In a (added s s') -> is_error_event a = false) /\
  forall inputs,
    es_stopped (DefinitionExecution.getState definition (steps definition s' inputs)) = Some true /\
    ds_stopped (DefinitionInstance.getState definition (steps definition s' inputs)) = Some true.
Proof.
  intros He Hc s'.
  assert (Hs' : s' = log (map ProcessStop (running s) ++
                     match callback with Some cb => [CallbackCall cb None] | None => [] end ++
                     [Emit EvEnd]) (set_listening false (set_stopped true s))).
  { subst s'. unfold_code. rewrite He, forEach_effect. cbn. rewrite Hc.
    destruct callback as [cb|]; cbn;
      cbv [log add_trace set_listening set_stopped]; cbn;
      rewrite <- ?List.app_assoc; reflexivity. }
  assert (Hst : stopped s' = true) by (by rewrite Hs').
  assert (Hadd : added s s' = map ProcessStop (running s) ++
                     match callback with Some cb => [CallbackCall cb None] | None => [] end ++
                     [Emit EvEnd]).
  { rewrite Hs'. apply added_app. reflexivity. }
  repeat split; auto.
  - rewrite Hadd. intros a Ha. apply in_app_or in Ha as [Ha|Ha].
    + apply in_map_iff in Ha as (pe & <- & _). reflexivity.
    + destruct callback; cbn in Ha; repeat destruct Ha as [<-|Ha]; try done.
  - unfold DefinitionExecution.getState; cbn.
    by rewrite (steps_stopped definition inputs s' Hst).
  - unfold DefinitionInstance.getState, DefinitionExecution.getState.
    destruct (steps_keep_execution definition inputs s') as [-> _].
    destruct (step_keeps_execution definition s Stop) as [E _].
    fold s' in E. rewrite E, He. cbn.
    by rewrite (steps_stopped definition inputs s' Hst).
Qed.

Lemma stop_completes_without_error_witness :
  let s := run_execute Samples.sales (Some 7%nat)
             [ProcessEmits (PEnter Samples.orderExecution)] in
  added s (step Samples.sales s Stop) =
    [ProcessStop Samples.orderExecution; CallbackCall 7%nat None; Emit EvEnd].
Proof.
  exact (proj1 (proj2 (stop_completes_without_error Samples.sales (Some 7%nat)
           (run_execute Samples.sales (Some 7%nat)
              [ProcessEmits (PEnter Samples.orderExecution)])
           eq_refl eq_refl))).
Defined.

(** *** C5 *)

Lemma findIndex_first {A} (f : A -> bool) (l1 l2 : list A) (x : A) :
  forallb (fun y => negb (f y)) l1 = true -> f x = true ->
  findIndex f (l1 ++ x :: l2) = Z.of_nat (length l1).
Proof.
  intros H1 Hx. unfold findIndex.
  assert (G : forall i, findIndexFrom f i (l1 ++ x :: l2) = i + Z.of_nat (length l1)).
  { induction l1 as [|y l1 IH]; intros i; cbn.
    - rewrite Hx. lia.
    - cbn in H1. apply andb_prop in H1 as [Hy H1].
      destruct (f y); [done|]. rewrite IH by done. lia. }
  rewrite G. lia.
Qed.




Arguments assigned : simpl never.

(** A completion leaves [running] and [completed] alone and assigns no
    output; what it adds to the trace is the callback call and the events. *)
Lemma call_complete_frame (definition : DefinitionApi) (err : option Err) (s : State) :
  let s' := state_of (DefinitionExecution.call_complete definition err s) in
  running s' = running s /\ completed s' = completed s /\
  exists l, trace s' = trace s ++ l /\ assigned l = [].
Proof.
  unfold_code.
  destruct (complete s) as [[cb|]|], err as [e|]; cbn;
    try destruct (errorListener definition); cbn;
    repeat split; rewrite <- ?List.app_assoc;
    try (eexists; split; [reflexivity|reflexivity]).
  all: exists []; by rewrite List.app_nil_r.
Qed.

(** [onEnd] for an execution found in [running]: it moves to [completed],
    its output is assigned, and the run completes if nothing else runs. *)
Lemma onEnd_found (definition : DefinitionApi) (pe : ProcessExecution) (s : State)
      (l1 l2 : list ProcessExecution) :
  running s = l1 ++ pe :: l2 -> ~ In pe l1 ->
  DefinitionExecution.onEnd definition pe s =
    let s1 := add_trace (AssignResult (pe_getOutput pe))
                (set_running (l1 ++ l2) (set_completed (completed s ++ [pe]) s)) in
    match l1 ++ l2 with
    | [] => DefinitionExecution.call_complete definition None s1
    | _ :: _ => Returned tt s1
    end.
Proof.
  intros Hr Hn. unfold DefinitionExecution.onEnd.
  cbv beta iota zeta delta [bind get ret modify effect].
  rewrite Hr.
  rewrite (findIndex_first (fun p => bool_decide (p = pe)) l1 l2 pe).
  - destruct (Z.ltb_spec (-1) (Z.of_nat (length l1))); [|lia].
    rewrite at_index_app. cbn. rewrite Hr, splice1_app.
    destruct (l1 ++ l2); reflexivity.
  - apply forallb_forall. intros y Hy. apply negb_true_iff, bool_decide_eq_false.
    intros ->. done.
  - by apply bool_decide_eq_true.
Qed.

(** [onEnd] for an execution that is not in [running]: only the test of the
    running list remains. *)
Lemma onEnd_not_found (definition : DefinitionApi) (pe : ProcessExecution) (s : State) :
  ~ In pe (running s) ->
  DefinitionExecution.onEnd definition pe s =
    match running s with
    | [] => DefinitionExecution.call_complete definition None s
    | _ :: _ => Returned tt s
    end.
Proof.
  intros Hn. unfold DefinitionExecution.onEnd.
  cbv beta iota zeta delta [bind get ret modify effect].
  destruct (findIndex_cases (fun p => bool_decide (p = pe)) (running s))
    as [[-> _]|(l1 & x & l2 & Hr & _ & Hx & _)].
  - cbn. destruct (running s); reflexivity.
  - apply bool_decide_eq_true in Hx as ->. exfalso. apply Hn. rewrite Hr.
    apply in_or_app. right. by left.
Qed.

(** An execution in [running] splits the list at its first occurrence. *)
Lemma running_split (pe : ProcessExecution) (l : list ProcessExecution) :
  In pe l -> exists l1 l2, l = l1 ++ pe :: l2 /\ ~ In pe l1.
Proof.
  intros Hin.
  destruct (findIndex_cases (fun p => bool_decide (p = pe)) l)
    as [[_ Hall]|(l1 & x & l2 & Hr & Hall & Hx & _)].
  - rewrite forallb_forall in Hall. specialize (Hall pe Hin).
    apply negb_true_iff, bool_decide_eq_false in Hall. done.
  - apply bool_decide_eq_true in Hx as ->. exists l1, l2. split; [done|].
    rewrite forallb_forall in Hall. intros Hl. specialize (Hall pe Hl).
    apply negb_true_iff, bool_decide_eq_false in Hall. done.
Qed.








(** *** C8 *)

Lemma signal_loop_accepted (args : list string) (answer : ProcessExecution -> bool)
      (l1 l2 : list ProcessExecution) (pe : ProcessExecution) (s : State) :
  (forall p, In p l1 -> answer p = false) -> answer pe = true ->
  DefinitionExecution.signal_loop args answer (l1 ++ pe :: l2) s =
    Returned (JsBool true) (log (map (fun p => ProcessSignal p args) (l1 ++ [pe])) s).
Proof.
  revert s. induction l1 as [|q l1 IH]; intros s Hl1 Hpe; cbn.
  - cbv [bind effect modify ret]. by rewrite Hpe.
  - cbv [bind effect modify ret]. rewrite (Hl1 q) by (by left).
    rewrite IH by (intros; try apply Hl1; auto; by right).
    by rewrite add_trace_log, log_log.
Qed.

Lemma signal_loop_refused (args : list string) (answer : ProcessExecution -> bool)
      (l : list ProcessExecution) (s : State) :
  (forall p, In p l -> answer p = false) ->
  DefinitionExecution.signal_loop args answer l s =
    Returned undefined (log (map (fun p => ProcessSignal p args) l) s).
Proof.
  revert s. induction l as [|q l IH]; intros s Hl; cbn.
  - by rewrite log_nil.
  - cbv [bind effect modify ret]. rewrite (Hl q) by (by left).
    rewrite IH by (intros; apply Hl; by right).
    by rewrite add_trace_log, log_log.
Qed.

(** C8, as stated, fails: when no running process takes the signal the call
    returns [undefined], which is not the boolean [false]. *)
Lemma signal_refused_returns_undefined :
  let s := run_execute Samples.sales None
             [ProcessEmits (PEnter Samples.orderExecution)] in
  DefinitionInstance.signal ["task"] (fun _ => false) s =
    Returned undefined (add_trace (ProcessSignal Samples.orderExecution ["task"]) s) /\
  undefined <> JsBool false.
Proof. split; [reflexivity | discriminate]. Qed.

(** C8, amended: during an execution, [signal] hands the arguments to the
    running processes in order and stops at the first that takes them,
    returning [true]; when none takes them every running process has been
    tried and the call returns [undefined]. *)
Theorem signal_tries_running_in_order
  (definition : DefinitionApi) (args : list string)
  (answer : ProcessExecution -> bool) (s : State) :
  definitionExecution s = true ->
  (forall l1 pe l2,
     running s = l1 ++ pe :: l2 ->
     (forall p, In p l1 -> answer p = false) -> answer pe = true ->
     DefinitionInstance.signal args answer s =
       Returned (JsBool true) (log (map (fun p => ProcessSignal p args) (l1 ++ [pe])) s)) /\
  ((forall p, In p (running s) -> answer p = false) ->
   DefinitionInstance.signal args answer s =
     Returned undefined (log (map (fun p => ProcessSignal p args) (running s)) s)).
Proof.
  intros He. unfold DefinitionInstance.signal, DefinitionExecution.signal.
  cbv [bind get]. rewrite He. split.
  - intros l1 pe l2 -> Hl1 Hpe. by apply signal_loop_accepted.
  - intros Hl. by apply signal_loop_refused.
Qed.

Lemma signal_tries_running_in_order_witness :
  let s := run_execute Samples.sales None
             [ProcessEmits (PEnter Samples.orderExecution);
              ProcessEmits (PEnter Samples.billingExecution)] in
  DefinitionInstance.signal ["task"] (fun pe => bool_decide (pe_id pe = "billing")) s =
    Returned (JsBool true)
      (log [ProcessSignal Samples.orderExecution ["task"];
            ProcessSignal Samples.billingExecution ["task"]] s).
Proof.
  apply (proj1 (signal_tries_running_in_order Samples.sales ["task"]
                  (fun pe => bool_decide (pe_id pe = "billing"))
                  (run_execute Samples.sales None
                     [ProcessEmits (PEnter Samples.orderExecution);
                      ProcessEmits (PEnter Samples.billingExecution)])
                  eq_refl)
           [Samples.orderExecution] Samples.billingExecution []).
  - reflexivity.
  - intros p [<-|[]]. reflexivity.
  - reflexivity.
Defined.

(** *** C6 *)

Lemma getRunningIndexById_not_running (target : string) (s : State) :
  (forall pe, In pe (running s) -> pe_id pe <> target) ->
  DefinitionExecution.getRunningIndexById target s = -1.
Proof.
  intros Hn. unfold DefinitionExecution.getRunningIndexById.
  destruct (findIndex_cases (fun p => bool_decide (pe_id p = target)) (running s))
    as [[-> _]|(l1 & x & l2 & Hr & _ & Hx & _)]; [done|].
  apply bool_decide_eq_true in Hx. exfalso. apply (Hn x); [|done].
  rewrite Hr. apply in_or_app. right. by left.
Qed.

Lemma getRunningIndexById_first (target : string) (s : State)
      (l1 l2 : list ProcessExecution) (pe : ProcessExecution) :
  running s = l1 ++ pe :: l2 ->
  (forall q, In q l1 -> pe_id q <> target) -> pe_id pe = target ->
  DefinitionExecution.getRunningIndexById target s = Z.of_nat (length l1).
Proof.
  intros Hr Hl1 Hpe. unfold DefinitionExecution.getRunningIndexById. rewrite Hr.
  apply findIndex_first.
  - apply forallb_forall. intros q Hq. apply negb_true_iff, bool_decide_eq_false.
    by apply Hl1.
  - by apply bool_decide_eq_true.
Qed.

(** [sendMessage] hands the message to the first running execution of the
    target process. *)
Lemma sendMessage_first (target : string) (m : Message) (s : State)
      (l1 l2 : list ProcessExecution) (pe : ProcessExecution) :
  running s = l1 ++ pe :: l2 ->
  (forall q, In q l1 -> pe_id q <> target) -> pe_id pe = target ->
  DefinitionExecution.sendMessage target m s =
    Returned tt (add_trace (ProcessSendMessage pe m) s).
Proof.
  intros Hr Hl1 Hpe. unfold DefinitionExecution.sendMessage.
  cbv beta iota zeta delta [bind get effect modify].
  rewrite (getRunningIndexById_first target s l1 l2 pe Hr Hl1 Hpe).
  by rewrite Hr, at_index_app.
Qed.

(** [sendMessage] for a process that is not running throws. *)
Lemma sendMessage_not_running (target : string) (m : Message) (s : State) :
  (forall pe, In pe (running s) -> pe_id pe <> target) ->
  DefinitionExecution.sendMessage target m s =
    Threw (TypeError "Cannot read property 'sendMessage' of undefined") s.
Proof.
  intros Hn. unfold DefinitionExecution.sendMessage.
  cbv beta iota zeta delta [bind get effect modify].
  by rewrite (getRunningIndexById_not_running target s Hn).
Qed.

(** C6: a message whose target process [target] is not running makes the
Definition call [run()] on that process and queue the delivery with
[setImmediate]; nothing is delivered in the same turn.  Once the process
has entered, the queued call hands the message to its execution.  A
message whose target process is running is handed to the first running
execution of that process at once, and nothing is queued. *)
Theorem message_to_process_not_running_is_deferred
  (definition : DefinitionApi) (m : Message) (target : string) (s : State) :
  getTargetProcess definition (via_targetId m) = Some target ->
  (forall p,
     (forall pe, In pe (running s) -> pe_id pe <> target) ->
     DefinitionExecution.getProcessById definition target = Some p ->
     DefinitionExecution.onMessage definition m s =
       Returned tt (set_immediates (immediates s ++ [(target, m)])
                                   (add_trace (ProcessRun p) s)) /\
     forall pe,
       listening s = true -> immediates s = [] -> pe_id pe = target ->
       let s1 := step definition s (ProcessEmits (PMessage m)) in
       let s2 := step definition s1 (ProcessEmits (PEnter pe)) in
       let s3 := step definition s2 Immediate in
       added s s2 = ProcessRun p :: (if entered s then [] else [Emit EvEnter]) /\
       immediates s2 = [(target, m)] /\
       added s2 s3 = [ProcessSendMessage pe m] /\
       immediates s3 = []) /\
  (forall l1 pe l2,
     running s = l1 ++ pe :: l2 ->
     (forall q, In q l1 -> pe_id q <> target) -> pe_id pe = target ->
     DefinitionExecution.onMessage definition m s =
       Returned tt (add_trace (ProcessSendMessage pe m) s)).
Proof.
  intros Ht. split.
  - intros p Hn Hp.
    assert (Hm : DefinitionExecution.onMessage definition m s =
       Returned tt (set_immediates (immediates s ++ [(target, m)])
                                   (add_trace (ProcessRun p) s))).
    { unfold DefinitionExecution.onMessage. rewrite Ht.
      cbv beta iota zeta delta [bind get effect modify DefinitionExecution.setImmediate].
      rewrite (getRunningIndexById_not_running target s Hn), Hp. reflexivity. }
    split; [exact Hm|].
    intros pe Hl Hq Hpe s1 s2 s3.
    assert (H1 : s1 = set_immediates [(target, m)] (add_trace (ProcessRun p) s)).
    { subst s1. unfold step, handle. cbv beta iota delta [bind get].
      rewrite Hl. cbn [DefinitionExecution.listener]. rewrite Hm, Hq. reflexivity. }
    assert (H2 : s2 = set_entered true
                   (log (if entered s then [] else [Emit EvEnter])
                      (set_running (running s ++ [pe]) s1))).
    { clear s3. subst s2. rewrite H1. clear H1 s1 Hm. unfold_code. simpl_state.
      rewrite Hl. destruct (entered s); cbn; [by rewrite List.app_nil_r|reflexivity]. }
    assert (H3 : s3 = add_trace (ProcessSendMessage pe m) (set_immediates [] s2)).
    { subst s3. unfold step, handle. cbv beta iota delta [bind get modify].
      assert (Hi : immediates s2 = [(target, m)]) by (by rewrite H2, H1).
      rewrite Hi.
      rewrite (sendMessage_first target m (set_immediates [] s2) (running s) [] pe);
        auto.
      rewrite H2. reflexivity. }
    clearbody s1 s2 s3.
    repeat split.
    + rewrite H2, H1. apply added_app. cbn. by rewrite <- List.app_assoc.
    + by rewrite H2, H1.
    + rewrite H3. apply added_app. reflexivity.
    + by rewrite H3.
  - intros l1 pe l2 Hr Hl1 Hpe.
    unfold DefinitionExecution.onMessage. rewrite Ht.
    cbv beta iota zeta delta [bind get].
    rewrite (getRunningIndexById_first target s l1 l2 pe Hr Hl1 Hpe).
    destruct (Z.eqb_spec (Z.of_nat (length l1)) (-1)); [lia|].
    by apply (sendMessage_first target m s l1 l2 pe).
Qed.

Lemma message_to_process_not_running_is_deferred_witness :
  let s := run_execute Samples.sales None
             [ProcessEmits (PEnter Samples.orderExecution)] in
  DefinitionExecution.onMessage Samples.sales Samples.invoice s =
    Returned tt (set_immediates [("billing", Samples.invoice)]
                                (add_trace (ProcessRun Samples.billing) s)).
Proof.
  apply (proj1 (proj1 (message_to_process_not_running_is_deferred
                  Samples.sales Samples.invoice "billing"
                  (run_execute Samples.sales None
                     [ProcessEmits (PEnter Samples.orderExecution)])
                  eq_refl) Samples.billing
                  ltac:(intros pe [<-|[]]; discriminate) eq_refl)).
Defined.

(** The whole exchange on the sample: [order] sends a message to [billing],
    which is spun up, enters, and gets the message on the next tick; a second
    message reaches it at once. *)
Example message_exchange :
  trace (run_execute Samples.sales None
           [ProcessEmits (PEnter Samples.orderExecution);
            ProcessEmits (PMessage Samples.invoice);
            ProcessEmits (PEnter Samples.billingExecution);
            Immediate;
            ProcessEmits (PMessage Samples.invoice)]) =
    [ProcessRun Samples.order; Emit EvEnter;
     ProcessRun Samples.billing;
     ProcessSendMessage Samples.billingExecution Samples.invoice;
     ProcessSendMessage Samples.billingExecution Samples.invoice].
Proof. reflexivity. Qed.

(** *** C3 *)

Lemma collect_pending {Result} (slots : list (option Result)) (i : nat) :
  slots !! i = Some None -> LoopController.collect slots = None.
Proof.
  revert i. induction slots as [|[r|] slots IH]; intros i Hi; cbn; [done| |done].
  destruct i as [|i]; [done|]. cbn in Hi. by rewrite (IH i Hi).
Qed.

Lemma collect_filled {Result} (value : nat -> Result) (done : gset nat) (l : list nat) :
  (forall i, i ∈ l -> i ∈ done) ->
  LoopController.collect
    ((fun i => if bool_decide (i ∈ done) then Some (value i) else None) <$> l) =
    Some (value <$> l).
Proof.
  induction l as [|i l IH]; intros Hl; cbn; [done|].
  rewrite bool_decide_eq_true_2 by (apply Hl; by left).
  rewrite IH; [done|]. intros j Hj. apply Hl. by right.
Qed.

Lemma slots_of_lookup {Result} (C : nat) (value : nat -> Result) (done : gset nat) (i : nat) :
  (i < C)%nat ->
  slots_of C value done !! i =
    Some (if bool_decide (i ∈ done) then Some (value i) else None).
Proof.
  intros Hi. unfold slots_of. by rewrite list_lookup_fmap, lookup_seq_lt.
Qed.

Lemma slots_of_empty {Result} (C : nat) (value : nat -> Result) :
  slots_of C value ∅ = replicate C None.
Proof.
  unfold slots_of. generalize 0%nat. induction C as [|C IH]; intros j; cbn; [done|].
  by rewrite IH.
Qed.

Lemma length_slots_of {Result} (C : nat) (value : nat -> Result) (done : gset nat) :
  length (slots_of C value done) = C.
Proof. unfold slots_of. by rewrite length_fmap, length_seq. Qed.

Lemma slots_of_insert {Result} (C : nat) (value : nat -> Result) (done : gset nat) (i : nat) :
  (i < C)%nat ->
  <[i := Some (value i)]> (slots_of C value done) = slots_of C value ({[i]} ∪ done).
Proof.
  intros Hi. apply list_eq. intros j.
  destruct (decide (i = j)) as [<-|Hne].
  - rewrite list_lookup_insert_eq, slots_of_lookup by
      (rewrite ?length_slots_of; done).
    rewrite bool_decide_eq_true_2 by set_solver. done.
  - rewrite list_lookup_insert_ne by done. unfold slots_of.
    rewrite !list_lookup_fmap. destruct (seq 0 C !! j) as [k|] eqn:Hk; [|done].
    apply lookup_seq in Hk as [-> _]. cbn. f_equal.
    rewrite (bool_decide_ext (j ∈ {[i]} ∪ done) (j ∈ done)); [done|]. set_solver.
Qed.

Arguments LoopController.wait_ids : simpl never.

Lemma wait_ids_snoc {Item} (evs : list (LoopController.ActivityEvent Item))
      (e : LoopController.ActivityEvent Item) :
  LoopController.wait_ids (evs ++ [e]) =
    LoopController.wait_ids evs ++
    match e with LoopController.wait id _ _ => [id] | _ => [] end.
Proof. unfold LoopController.wait_ids. rewrite omap_app. by destruct e. Qed.

(** After the first [n] contexts of a parallel loop are spawned. *)
Lemma spawn_all {Item Result} (id : string) (its : list Item) (n : nat) :
  (n <= length its)%nat ->
  let st := foldl LoopController.spawn
              {| LoopController.activityId := id;
                 LoopController.isSequential := false;
                 LoopController.items := its;
                 LoopController.completedResults := replicate (length its) (@None Result);
                 LoopController.spawned := 0;
                 LoopController.events := [];
                 LoopController.output := None |} (seq 0 n) in
  LoopController.activityId st = id /\
  LoopController.isSequential st = false /\
  LoopController.items st = its /\
  LoopController.completedResults st = replicate (length its) None /\
  LoopController.spawned st = n /\
  LoopController.output st = None /\
  LoopController.wait_ids (LoopController.events st) = parallel_id id <$> seq 0 n.
Proof.
  induction n as [|n IH]; intros Hn; cbn zeta; [done|].
  rewrite seq_S, foldl_snoc. cbn [Nat.add].
  destruct IH as (H1 & H2 & H3 & H4 & H5 & H6 & H7); [lia|].
  set (st := foldl _ _ _) in *.
  unfold LoopController.spawn. rewrite H3.
  destruct (lookup_lt_is_Some_2 its n) as [item ->]; [lia|]. cbn.
  repeat split; auto.
  rewrite wait_ids_snoc, H7, fmap_app. cbn.
  unfold LoopController.contextId, LoopController.iteration. by rewrite H1, H2.
Qed.

(** [complete] leaves the loop as it is, emits no [wait], and sets the
    output as soon as every slot is filled. *)
Lemma complete_spec {Item Result} (st : LoopController.LoopState Item Result) :
  LoopController.output st = None ->
  let st' := LoopController.complete st in
  LoopController.activityId st' = LoopController.activityId st /\
  LoopController.isSequential st' = LoopController.isSequential st /\
  LoopController.items st' = LoopController.items st /\
  LoopController.completedResults st' = LoopController.completedResults st /\
  LoopController.spawned st' = LoopController.spawned st /\
  LoopController.wait_ids (LoopController.events st') =
    LoopController.wait_ids (LoopController.events st) /\
  LoopController.output st' = LoopController.collect (LoopController.completedResults st).
Proof.
  intros Ho. unfold LoopController.complete. rewrite Ho.
  destruct (LoopController.collect _) eqn:Hc; cbn; repeat split; auto.
  by rewrite wait_ids_snoc, List.app_nil_r.
Qed.

Lemma run_parallel_loop_at {Item Result} (id : string) (its : list Item)
      (value : nat -> Result) :
  parallel_loop_at id its value ∅ (LoopController.run Result id false its).
Proof.
  unfold LoopController.run.
  destruct (spawn_all (Result:=Result) id its (length its)) as (H1 & H2 & H3 & H4 & H5 & H6 & H7);
    [lia|].
  set (st := foldl _ _ _) in *.
  destruct (complete_spec st H6) as (G1 & G2 & G3 & G4 & G5 & G6 & G7).
  unfold parallel_loop_at. rewrite G1, G2, G5, G4, G6, G7, H1, H2, H4, H5, H7.
  by rewrite slots_of_empty.
Qed.

Lemma signal_parallel_loop_at {Item Result} (id : string) (its : list Item)
      (value : nat -> Result) (done : gset nat)
      (st : LoopController.LoopState Item Result) (i : nat) :
  parallel_loop_at id its value done st -> i ∉ done -> (i < length its)%nat ->
  parallel_loop_at id its value ({[i]} ∪ done) (LoopController.signal st i (value i)).
Proof.
  intros (H1 & H2 & H3 & H4 & H5 & H6) Hi Hlt.
  assert (Hs : LoopController.completedResults st !! i = Some None).
  { rewrite H4, slots_of_lookup by done. by rewrite bool_decide_eq_false_2. }
  unfold LoopController.signal, LoopController.waiting.
  rewrite H3, Hs, bool_decide_eq_true_2 by done. cbn. rewrite H2.
  set (st1 := LoopController.Build_LoopState _ _ _ _ _ _ _ _ _).
  assert (Ho : LoopController.output st1 = None).
  { subst st1. cbn. rewrite H6. by apply (collect_pending _ i). }
  destruct (complete_spec st1 Ho) as (G1 & G2 & G3 & G4 & G5 & G6 & G7).
  unfold parallel_loop_at. rewrite G1, G2, G5, G4, G6, G7. subst st1. cbn.
  rewrite wait_ids_snoc, List.app_nil_r, H4, slots_of_insert by done.
  repeat split; auto.
Qed.

Lemma signals_parallel_loop_at {Item Result} (id : string) (its : list Item)
      (value : nat -> Result) (order : list nat) :
  forall (done : gset nat) (st : LoopController.LoopState Item Result),
    parallel_loop_at id its value done st ->
    NoDup order ->
    (forall i, i ∈ order -> (i ∉ done) /\ (i < length its)%nat) ->
    parallel_loop_at id its value (list_to_set order ∪ done)
                     (LoopController.signals value order st).
Proof.
  induction order as [|i order IH]; intros done st Hst Hnd Hin.
  - cbn. by rewrite (left_id_L ∅ (∪)).
  - apply NoDup_cons in Hnd as [Hi Hnd].
    destruct (Hin i) as [Hid Hlt]; [by left|].
    assert (E : list_to_set (i :: order) ∪ done =@{gset nat}
                list_to_set order ∪ ({[i]} ∪ done)) by set_solver.
    rewrite E.
    change (LoopController.signals value (i :: order) st)
      with (LoopController.signals value order (LoopController.signal st i (value i))).
    apply IH; [by apply signal_parallel_loop_at|done|].
    intros j Hj. destruct (Hin j) as [Hjd Hjlt]; [by right|].
    split; [|done]. set_solver.
Qed.

(** C3: in a parallel loop over [C] items, whatever the order in which the
    [C] waiting ExecutionContexts are signalled, [C] [wait] events were
    emitted (one per context, [id_0] to [id_(C-1)]), and the aggregated
    output has length [C] and holds at position [i] the value signalled to
    the context spawned [i]-th. *)
Theorem parallel_loop_output_in_spawn_order {Item Result}
  (id : string) (its : list Item) (value : nat -> Result) (order : list nat) :
  order ≡ₚ seq 0 (length its) ->
  let st := LoopController.signals value order (LoopController.run Result id false its) in
  LoopController.wait_ids (LoopController.events st) =
    map (fun i => id +:+ "_" +:+ pretty i) (seq 0 (length its)) /\
  length (LoopController.wait_ids (LoopController.events st)) = length its /\
  LoopController.output st = Some (map value (seq 0 (length its))) /\
  length (map value (seq 0 (length its))) = length its.
Proof.
  intros Hp st.
  assert (Hnd : NoDup order) by (rewrite Hp; apply NoDup_seq).
  assert (Hin : forall i, i ∈ order <-> (i < length its)%nat).
  { intros i. rewrite Hp, elem_of_seq. lia. }
  destruct (signals_parallel_loop_at id its value order ∅
              (LoopController.run Result id false its))
    as (_ & _ & _ & H4 & H5 & H6).
  - apply run_parallel_loop_at.
  - done.
  - intros i Hi. split; [set_solver|]. by apply Hin.
  - fold st in H4, H5, H6. repeat split.
    + exact H5.
    + rewrite H5. by rewrite length_fmap, length_seq.
    + rewrite H6, H4. apply (collect_filled value).
      intros i Hi. apply elem_of_seq in Hi.
      apply elem_of_union_l, elem_of_list_to_set, Hin. lia.
    + by rewrite length_map, length_seq.
Qed.

(** The three contexts of the tests' loop, signalled in reverse spawn order. *)
Lemma parallel_loop_output_in_spawn_order_witness :
  let st := LoopController.signals (fun i => (10 * i)%nat) [2; 1; 0]%nat
              (LoopController.run nat "task" false ["pal"; "franz"; "immanuel"]) in
  LoopController.wait_ids (LoopController.events st) = ["task_0"; "task_1"; "task_2"] /\
  length (LoopController.wait_ids (LoopController.events st)) = 3%nat /\
  LoopController.output st = Some [0; 10; 20]%nat /\
  length [0; 10; 20]%nat = 3%nat.
Proof.
  apply (parallel_loop_output_in_spawn_order "task" ["pal"; "franz"; "immanuel"]
           (fun i => (10 * i)%nat) [2; 1; 0]%nat).
  symmetry. apply (Permutation_rev [0; 1; 2]%nat).
Defined.

(** *** C4 *)

(** [complete] and [spawn] keep the loop's identity; [complete] emits no
    [wait], [spawn] at most the one of the context it creates. *)
Lemma complete_keeps {Item Result} (st : LoopController.LoopState Item Result) :
  LoopController.activityId (LoopController.complete st) = LoopController.activityId st /\
  LoopController.isSequential (LoopController.complete st) = LoopController.isSequential st /\
  LoopController.wait_ids (LoopController.events (LoopController.complete st)) =
    LoopController.wait_ids (LoopController.events st).
Proof.
  unfold LoopController.complete.
  destruct (LoopController.output st),
    (LoopController.collect (LoopController.completedResults st));
    cbn; repeat split; auto.
  by rewrite wait_ids_snoc, List.app_nil_r.
Qed.

Lemma spawn_keeps {Item Result} (st : LoopController.LoopState Item Result) (index : nat) :
  LoopController.activityId (LoopController.spawn st index) = LoopController.activityId st /\
  LoopController.isSequential (LoopController.spawn st index) = LoopController.isSequential st /\
  (LoopController.wait_ids (LoopController.events (LoopController.spawn st index)) =
     LoopController.wait_ids (LoopController.events st) \/
   LoopController.wait_ids (LoopController.events (LoopController.spawn st index)) =
     LoopController.wait_ids (LoopController.events st) ++ [LoopController.contextId st index]).
Proof.
  unfold LoopController.spawn. destruct (LoopController.items st !! index); cbn; auto.
  repeat split; auto. right. by rewrite wait_ids_snoc.
Qed.

(** In a sequential loop every [wait] carries the Activity id, whatever is
    signalled. *)
Lemma sequential_wait_ids {Item Result} (id : string) (its : list Item)
      (sigs : list (nat * Result)) :
  Forall (eq id)
    (LoopController.wait_ids
       (LoopController.events
          (foldl (fun st s => LoopController.signal st s.1 s.2)
                 (LoopController.run Result id true its) sigs))).
Proof.
  set (inv := fun st : LoopController.LoopState Item Result =>
         LoopController.activityId st = id /\ LoopController.isSequential st = true /\
         Forall (eq id) (LoopController.wait_ids (LoopController.events st))).
  assert (Hspawn : forall st index, inv st -> inv (LoopController.spawn st index)).
  { intros st index (H1 & H2 & H3).
    destruct (spawn_keeps st index) as (G1 & G2 & [G3|G3]); unfold inv;
      rewrite G1, G2, G3; repeat split; auto.
    apply Forall_app. split; [done|]. apply Forall_singleton.
    unfold LoopController.contextId, LoopController.iteration. by rewrite H1, H2. }
  assert (Hcomplete : forall st, inv st -> inv (LoopController.complete st)).
  { intros st (H1 & H2 & H3). destruct (complete_keeps st) as (G1 & G2 & G3).
    unfold inv. by rewrite G1, G2, G3. }
  assert (Hsignal : forall st i v, inv st -> inv (LoopController.signal st i v)).
  { intros st i v Hst. unfold LoopController.signal.
    destruct (LoopController.waiting st i); [|done].
    destruct Hst as (H1 & H2 & H3). rewrite H2.
    apply Hcomplete, Hspawn. unfold inv. cbn. repeat split; auto.
    by rewrite wait_ids_snoc, List.app_nil_r. }
  assert (Hrun : inv (LoopController.run Result id true its)).
  { unfold LoopController.run. apply Hcomplete, Hspawn. unfold inv. cbn.
    repeat split; auto. }
  revert Hrun. generalize (LoopController.run Result id true its).
  induction sigs as [|[i v] sigs IH]; intros st Hst; cbn.
  - by destruct Hst as (_ & _ & ?).
  - apply IH. by apply Hsignal.
Qed.

(** In a parallel loop the [wait] events are those of loop entry, one per
    item, whatever is signalled. *)
Lemma parallel_wait_ids {Item Result} (id : string) (its : list Item)
      (sigs : list (nat * Result)) :
  LoopController.wait_ids
    (LoopController.events
       (foldl (fun st s => LoopController.signal st s.1 s.2)
              (LoopController.run Result id false its) sigs)) =
    parallel_id id <$> seq 0 (length its).
Proof.
  set (inv := fun st : LoopController.LoopState Item Result =>
         LoopController.isSequential st = false /\
         LoopController.wait_ids (LoopController.events st) =
           parallel_id id <$> seq 0 (length its)).
  assert (Hsignal : forall st i v, inv st -> inv (LoopController.signal st i v)).
  { intros st i v (H2 & H3). unfold LoopController.signal.
    destruct (LoopController.waiting st i); [|done]. rewrite H2.
    set (st1 := LoopController.Build_LoopState _ _ _ _ _ _ _ _ _).
    destruct (complete_keeps st1) as (_ & G2 & G3). unfold inv.
    rewrite G2, G3. subst st1. cbn. by rewrite wait_ids_snoc, List.app_nil_r. }
  assert (Hrun : inv (LoopController.run Result id false its)).
  { unfold LoopController.run.
    destruct (spawn_all (Result:=Result) id its (length its))
      as (_ & H2 & _ & _ & _ & _ & H7); [lia|].
    set (st := foldl _ _ _) in *.
    destruct (complete_keeps st) as (_ & G2 & G3). unfold inv.
    by rewrite G2, G3, H2, H7. }
  revert Hrun. generalize (LoopController.run Result id false its).
  induction sigs as [|[i v] sigs IH]; intros st Hst; cbn.
  - by destruct Hst as (_ & ?).
  - apply IH. by apply Hsignal.
Qed.

(** C4, as stated, fails for sequential loops: the three iterations of the
    sequential loop of the tests all carry the id [task], not [task_0],
    [task_1], [task_2], and so the ids are not unique either. *)
Lemma sequential_iterations_share_the_activity_id :
  let ids := LoopController.wait_ids
               (LoopController.events
                  (LoopController.signals (fun i => i) [0; 1; 2]%nat
                     (LoopController.run nat "task" true ["a"; "b"; "c"]))) in
  ids = ["task"; "task"; "task"] /\
  ids <> ["task_0"; "task_1"; "task_2"] /\
  ~ NoDup ids.
Proof.
  cbv zeta. split; [reflexivity|]. split; [discriminate|].
  vm_compute. intros H. apply NoDup_cons_1_1 in H. apply H. by left.
Qed.

(** C4, amended: the ExecutionContext of a singular run and of each
    iteration of a sequential loop carries the Activity id; the
    ExecutionContext of iteration [index] of a parallel loop carries the
    Activity id, an underscore and the index, which differs from the
    Activity id and from the id of every other iteration.  So the [wait]
    events of a sequential loop all carry the Activity id, and those of a
    parallel loop over [C] items carry [id_0] to [id_(C-1)]. *)
Theorem execution_context_ids (activityId : string) :
  LoopController.executionContextId activityId LoopController.Singular = activityId /\
  (forall index,
     LoopController.executionContextId activityId
       (LoopController.SequentialIteration index) = activityId) /\
  (forall index,
     LoopController.executionContextId activityId
       (LoopController.ParallelIteration index) = activityId +:+ "_" +:+ pretty index) /\
  (forall index,
     LoopController.executionContextId activityId
       (LoopController.ParallelIteration index) <> activityId) /\
  (forall i j,
     i <> j ->
     LoopController.executionContextId activityId (LoopController.ParallelIteration i) <>
     LoopController.executionContextId activityId (LoopController.ParallelIteration j)) /\
  (forall (Item Result : Type) (its : list Item) (sigs : list (nat * Result)),
     Forall (eq activityId)
       (LoopController.wait_ids
          (LoopController.events
             (foldl (fun st s => LoopController.signal st s.1 s.2)
                    (LoopController.run Result activityId true its) sigs))) /\
     LoopController.wait_ids
       (LoopController.events
          (foldl (fun st s => LoopController.signal st s.1 s.2)
                 (LoopController.run Result activityId false its) sigs)) =
       map (fun i => activityId +:+ "_" +:+ pretty i) (seq 0 (length its))).
Proof.
  repeat split; try reflexivity.
  - intros index H. cbn in H.
    assert (E : activityId +:+ "_" +:+ pretty index = activityId +:+ "").
    { rewrite H. clear. induction activityId as [|c a IH]; [done|].
      change (String c a = String c (a +:+ "")). by f_equal. }
    apply (inj (String.append activityId)) in E. discriminate.
  - intros i j Hne H. cbn in H.
    apply (inj (String.append activityId)) in H.
    apply (inj (String.append "_")) in H.
    by apply (inj pretty) in H.
  - apply sequential_wait_ids.
  - apply parallel_wait_ids.
Qed.

Lemma execution_context_ids_witness :
  LoopController.executionContextId "task" (LoopController.ParallelIteration 0) <>
  LoopController.executionContextId "task" (LoopController.ParallelIteration 1).
Proof.
  apply (proj1 (proj2 (proj2 (proj2 (proj2 (execution_context_ids "task")))))). lia.
Defined.
(** ** Further properties of the Definition execution *)

(** *** The snapshot of [getState] *)







(** *** Looking into the executions *)

Lemma first_truthy_app {P A} (ask : P -> option A) (l1 l2 : list P) :
  first_truthy ask (l1 ++ l2) =
    match first_truthy ask l1 with
    | Some a => Some a
    | None => first_truthy ask l2
    end.
Proof.
  induction l1 as [|p l1 IH]; cbn; [by destruct (first_truthy ask l2)|].
  by destruct (ask p).
Qed.

Lemma first_truthy_Some {P A} (ask : P -> option A) (l : list P) (a : A) :
  first_truthy ask l = Some a <->
  exists l1 p l2, l = l1 ++ p :: l2 /\ (forall q, In q l1 -> ask q = None) /\ ask p = Some a.
Proof.
  induction l as [|x l IH]; cbn.
  - split; [done|]. intros (l1 & p & l2 & E & _). by destruct l1.
  - destruct (ask x) as [b|] eqn:Hx.
    + split.
      * intros [= ->]. exists [], x, l. by repeat split.
      * intros (l1 & p & l2 & E & Hl1 & Hp). destruct l1 as [|y l1]; simplify_eq/=.
        -- congruence.
        -- specialize (Hl1 y (or_introl eq_refl)). congruence.
    + rewrite IH. split.
      * intros (l1 & p & l2 & -> & Hl1 & Hp). exists (x :: l1), p, l2.
        repeat split; [|done]. intros q [<-|Hq]; auto.
      * intros (l1 & p & l2 & E & Hl1 & Hp). destruct l1 as [|y l1]; simplify_eq/=.
        exists l1, p, l2. repeat split; auto.
Qed.

Lemma first_truthy_None {P A} (ask : P -> option A) (l : list P) :
  first_truthy ask l = None <-> forall q, In q l -> ask q = None.
Proof.
  induction l as [|x l IH]; cbn; [by split|].
  destruct (ask x) eqn:Hx.
  - split; [done|]. intros H. specialize (H x (or_introl eq_refl)). congruence.
  - rewrite IH. split; [intros H q [<-|Hq]; auto|]. intros H q Hq. apply H. by right.
Qed.

Lemma getChildState_first_truthy {A} (childState : ProcessExecution -> string -> option A)
      (childId : string) (s : State) :
  DefinitionExecution.getChildState childState childId s =
    first_truthy (fun pe => childState pe childId) (running s ++ completed s).
Proof. unfold DefinitionExecution.getChildState. by rewrite first_truthy_app. Qed.

(** X2: [getChildState(childId)] answers with the first truthy answer among
    the running executions followed by the completed ones, so a running
    execution is preferred to a completed one; it answers [undefined] exactly
    when no execution has the child, and always on a definition that was
    never executed. *)
Theorem getChildState_first_execution_that_has_the_child
  {A} (childState : ProcessExecution -> string -> option A) (childId : string) (s : State) :
  (forall state,
     DefinitionExecution.getChildState childState childId s = Some state <->
     exists l1 pe l2,
       running s ++ completed s = l1 ++ pe :: l2 /\
       (forall q, In q l1 -> childState q childId = None) /\
       childState pe childId = Some state) /\
  (DefinitionExecution.getChildState childState childId s = None <->
   forall pe, In pe (running s ++ completed s) -> childState pe childId = None) /\
  (definitionExecution s = true ->
   DefinitionInstance.getChildState childState childId s =
     DefinitionExecution.getChildState childState childId s) /\
  (definitionExecution s = false ->
   DefinitionInstance.getChildState childState childId s = None).
Proof.
  rewrite getChildState_first_truthy. split; [|split; [|split]].
  - intros state. apply (first_truthy_Some (fun pe => childState pe childId)).
  - apply (first_truthy_None (fun pe => childState pe childId)).
  - intros E. unfold DefinitionInstance.getChildState. rewrite E.
    apply getChildState_first_truthy.
  - intros E. unfold DefinitionInstance.getChildState. by rewrite E.
Qed.

Lemma getChildState_first_execution_that_has_the_child_witness :
  DefinitionExecution.getChildState
    (fun pe childId => if bool_decide (pe_id pe = "billing")
                       then Some (ps_body (pe_getState pe)) else None)
    "receive" Samples.billed_twice = Some "entered again".
Proof.
  apply (proj1 (getChildState_first_execution_that_has_the_child
                  (fun pe childId => if bool_decide (pe_id pe = "billing")
                                     then Some (ps_body (pe_getState pe)) else None)
                  "receive" Samples.billed_twice)).
  exists [Samples.orderExecution], Samples.billingRerun, [Samples.billingExecution].
  split; [reflexivity|]. split; [|reflexivity].
  intros q [<-|[]]. reflexivity.
Defined.

Lemma foldl_concat_arg {A} (pending : ProcessExecution -> ConcatArg A)
      (l : list ProcessExecution) (acc : list A) :
  foldl (fun l pe => concat_arg l (pending pe)) acc l =
    acc ++ concat (map (fun pe => match pending pe with
                                  | AnArray items => items
                                  | AValue a => [a]
                                  end) l).
Proof.
  revert acc. induction l as [|pe l IH]; intros acc; cbn.
  - by rewrite List.app_nil_r.
  - rewrite IH. destruct (pending pe); cbn; by rewrite <- List.app_assoc.
Qed.

(** X3: [getPendingActivities()] lists what the running executions answer,
    in the order of the running list, one level of arrays flattened; the
    completed executions contribute nothing, so that whenever the state it
    reports is not [running] the list of children is empty; a definition
    that was never executed reports [pending] and no children. *)
Theorem getPendingActivities_lists_the_running_executions
  {A} (pending : ProcessExecution -> ConcatArg A) (s : State) :
  let result := DefinitionInstance.getPendingActivities pending s in
  (definitionExecution s = true ->
   pa_state result = DefinitionExecution.getRunningStatus s /\
   pa_children result =
     concat (map (fun pe => match pending pe with
                            | AnArray items => items
                            | AValue a => [a]
                            end) (running s))) /\
  (pa_state result <> StatusRunning -> pa_children result = []) /\
  (definitionExecution s = false ->
   result = {| pa_state := StatusPending; pa_children := [] |}).
Proof.
  unfold DefinitionInstance.getPendingActivities, DefinitionExecution.getPendingActivities.
  cbv zeta. split; [|split].
  - intros ->. cbn. by rewrite foldl_concat_arg.
  - destruct (definitionExecution s); cbn; [|done].
    unfold DefinitionExecution.getRunningStatus.
    destruct (running s) as [|pe l]; cbn; [done|].
    intros H. by destruct H.
  - by intros ->.
Qed.

Lemma getPendingActivities_lists_the_running_executions_witness :
  pa_children (DefinitionInstance.getPendingActivities
                 (fun pe => AnArray [pe_id pe]) Samples.billed_twice) =
    ["order"; "billing"].
Proof.
  rewrite (proj2 (proj1 (getPendingActivities_lists_the_running_executions
                           (fun pe => AnArray [pe_id pe]) Samples.billed_twice)
                        eq_refl)).
  reflexivity.
Defined.

(** *** Deferred messages *)

(** X4: when the queued [sendMessage] of a deferred message runs and no
    running execution has the target process id (the process did not enter,
    or it has ended since), the call throws a TypeError that nobody catches;
    the message is handed to no process and is not queued again. *)
Theorem deferred_message_without_running_target_is_lost
  (definition : DefinitionApi) (s : State) (target : string) (m : Message)
  (queue : list (string * Message)) :
  immediates s = (target, m) :: queue ->
  (forall pe, In pe (running s) -> pe_id pe <> target) ->
  step definition s Immediate =
    add_trace (Uncaught (TypeError "Cannot read property 'sendMessage' of undefined"))
              (set_immediates queue s).
Proof.
  intros Hq Hr. unfold step, handle. cbv [bind get modify]. rewrite Hq.
  rewrite sendMessage_not_running; [done|]. exact Hr.
Qed.

Lemma deferred_message_without_running_target_is_lost_witness :
  let s := run_execute Samples.sales None
             [ProcessEmits (PEnter Samples.orderExecution);
              ProcessEmits (PMessage Samples.invoice)] in
  immediates s = [("billing", Samples.invoice)] /\
  added s (step Samples.sales s Immediate) =
    [Uncaught (TypeError "Cannot read property 'sendMessage' of undefined")] /\
  immediates (step Samples.sales s Immediate) = [].
Proof.
  intros s.
  rewrite (deferred_message_without_running_target_is_lost
             Samples.sales s "billing" Samples.invoice []).
  - repeat split.
  - reflexivity.
  - intros pe [<-|[]]. discriminate.
Defined.

(** *** The executions of a run *)

(** One input changes the population of [running] and [completed] only
    by the execution that enters. *)
Lemma step_population (definition : DefinitionApi) (s : State) (i : Input) :
  exists extra,
    running (step definition s i) ++ completed (step definition s i) ≡ₚ
      (running s ++ completed s) ++ extra /\
    forall pe, In pe extra -> i = ProcessEmits (PEnter pe).
Proof.
  assert (Same : forall s', running s' = running s -> completed s' = completed s ->
            exists extra, running s' ++ completed s' ≡ₚ (running s ++ completed s) ++ extra /\
                          forall pe, In pe extra -> i = ProcessEmits (PEnter pe)).
  { intros s' -> ->. exists []. by rewrite List.app_nil_r. }
  destruct i as [ev|args answer| |].
  - destruct ev as [pe| |m|pe|err].
    4: { unfold step, handle. cbv beta iota delta [bind get ret].
         destruct (listening s); [|by apply Same]. cbn [DefinitionExecution.listener].
         exists []. split; [|done]. rewrite List.app_nil_r.
         assert (H : running (state_of (DefinitionExecution.onEnd definition pe s)) ++
                     completed (state_of (DefinitionExecution.onEnd definition pe s)) ≡ₚ
                     running s ++ completed s).
         { destruct (in_dec ProcessExecution_eq_dec pe (running s)) as [Hin|Hn].
           - destruct (running_split pe (running s) Hin) as (l1 & l2 & Hr & Hl1).
             rewrite (onEnd_found definition pe s l1 l2 Hr Hl1). cbv zeta.
             set (s1 := add_trace _ _).
             assert (H1 : running s1 ++ completed s1 ≡ₚ running s ++ completed s).
             { subst s1. cbn. rewrite Hr. solve_Permutation. }
             destruct (l1 ++ l2); [|done].
             by destruct (call_complete_frame definition None s1) as (-> & -> & _).
           - rewrite (onEnd_not_found definition pe s Hn).
             destruct (running s) eqn:E; [|cbn; by rewrite E].
             destruct (call_complete_frame definition None s) as (-> & -> & _).
             by rewrite E. }
         by destruct (DefinitionExecution.onEnd definition pe s). }
    1: { unfold_code. destruct (listening s); [|by apply Same].
         exists [pe]. split; [|by intros ? [<-|[]]].
         repeat case_match; simplify_eq; cbn; solve_Permutation. }
    all: unfold_code; repeat case_match; simplify_eq; by apply Same.
  - unfold_code. destruct (definitionExecution s); [|by apply Same].
    destruct (signal_loop_log args answer (running s) s) as (v & l' & ->).
    by apply Same.
  - unfold_code. destruct (definitionExecution s); [|by apply Same].
    rewrite forEach_effect. repeat case_match; simplify_eq; by apply Same.
  - unfold_code. repeat case_match; simplify_eq; by apply Same.
Qed.

Lemma steps_population (definition : DefinitionApi) (inputs : list Input) (s : State) :
  exists extra,
    running (steps definition s inputs) ++ completed (steps definition s inputs) ≡ₚ
      (running s ++ completed s) ++ extra /\
    forall pe, In pe extra -> In (ProcessEmits (PEnter pe)) inputs.
Proof.
  revert s. induction inputs as [|i inputs IH]; intros s.
  - exists []. by rewrite List.app_nil_r.
  - change (steps definition s (i :: inputs))
      with (steps definition (step definition s i) inputs).
    destruct (IH (step definition s i)) as (extra2 & E2 & H2).
    destruct (step_population definition s i) as (extra1 & E1 & H1).
    exists (extra1 ++ extra2). split; [by rewrite E2, E1, <- !List.app_assoc|].
    intros pe Hpe. apply List.in_app_or in Hpe as [Hpe|Hpe].
    + left. by apply H1.
    + right. by apply H2.
Qed.

(** A new execution has nothing running and nothing completed. *)
Lemma execute_starts_empty (definition : DefinitionApi) (callback : option Callback) :
  running (run_execute definition callback []) = [] /\
  completed (run_execute definition callback []) = [].
Proof.
  unfold run_execute, steps. cbn [foldl]. unfold_code.
  repeat case_match; simplify_eq; done.
Qed.

Lemma resume_starts_empty (definition : DefinitionApi) (state : SavedState)
      (callback : option Callback) :
  running (run_resume definition state callback []) = [] /\
  completed (run_resume definition state callback []) = [].
Proof.
  unfold run_resume, steps. cbn [foldl]. unfold_code.
  repeat case_match; simplify_eq; try rewrite forEach_effect in *; simplify_eq; done.
Qed.

(** X5: no input removes an execution: each one in [running] or [completed]
    stays in one of the two lists, as often as it was there, and every
    execution the lists gain has entered through an [enter] event of its
    process; so the running status never returns to [pending], and in a run
    started by [execute] or by [resume] the two lists hold only executions
    that entered. *)
Theorem executions_stay_and_come_from_enter
  (definition : DefinitionApi) (inputs : list Input) :
  (forall s,
     let s' := steps definition s inputs in
     running s ++ completed s ⊆+ running s' ++ completed s' /\
     (forall pe, In pe (running s' ++ completed s') ->
                 In pe (running s ++ completed s) \/ In (ProcessEmits (PEnter pe)) inputs) /\
     (DefinitionExecution.getRunningStatus s' = StatusPending ->
      DefinitionExecution.getRunningStatus s = StatusPending)) /\
  (forall callback pe,
     In pe (running (run_execute definition callback inputs) ++
            completed (run_execute definition callback inputs)) ->
     In (ProcessEmits (PEnter pe)) inputs) /\
  (forall state callback pe,
     In pe (running (run_resume definition state callback inputs) ++
            completed (run_resume definition state callback inputs)) ->
     In (ProcessEmits (PEnter pe)) inputs).
Proof.
  assert (G : forall s pe,
            In pe (running (steps definition s inputs) ++
                   completed (steps definition s inputs)) ->
            In pe (running s ++ completed s) \/ In (ProcessEmits (PEnter pe)) inputs).
  { intros s pe Hpe.
    destruct (steps_population definition inputs s) as (extra & Hp & He).
    apply list_elem_of_In in Hpe. rewrite Hp in Hpe.
    apply elem_of_app in Hpe as [Hpe|Hpe]; apply list_elem_of_In in Hpe; auto. }
  split; [|split].
  - intros s s'. subst s'. split; [|split].
    + destruct (steps_population definition inputs s) as (extra & Hp & _).
      rewrite Hp. by apply submseteq_inserts_r.
    + apply G.
    + destruct (steps_population definition inputs s) as (extra & Hp & _).
      apply Permutation_length in Hp. rewrite !length_app in Hp.
      unfold DefinitionExecution.getRunningStatus.
      destruct (running (steps definition s inputs)), (completed (steps definition s inputs));
        try done.
      destruct (running s), (completed s); cbn in *; try done; lia.
  - intros callback pe Hpe. unfold run_execute in Hpe.
    apply G in Hpe as [Hpe|Hpe]; [|done].
    destruct (execute_starts_empty definition callback) as [Hr Hc].
    unfold run_execute, steps in Hr, Hc. cbn [foldl] in Hr, Hc.
    rewrite Hr, Hc in Hpe. done.
  - intros state callback pe Hpe. unfold run_resume in Hpe.
    apply G in Hpe as [Hpe|Hpe]; [|done].
    destruct (resume_starts_empty definition state callback) as [Hr Hc].
    unfold run_resume, steps in Hr, Hc. cbn [foldl] in Hr, Hc.
    rewrite Hr, Hc in Hpe. done.
Qed.

Lemma executions_stay_and_come_from_enter_witness :
  In (ProcessEmits (PEnter Samples.orderExecution))
     [ProcessEmits (PEnter Samples.orderExecution);
      ProcessEmits (PEnd Samples.orderExecution)].
Proof.
  apply (proj1 (proj2 (executions_stay_and_come_from_enter Samples.sales
                         [ProcessEmits (PEnter Samples.orderExecution);
                          ProcessEmits (PEnd Samples.orderExecution)]))
               None Samples.orderExecution).
  vm_compute. by left.
Defined.

(** *** Completion *)

Lemma count_nil (f : Action -> bool) : count f [] = 0%nat.
Proof. reflexivity. Qed.

Lemma count_cons (f : Action -> bool) (a : Action) (l : list Action) :
  count f (a :: l) = ((if f a then 1 else 0) + count f l)%nat.
Proof. unfold count. cbn. by destruct (f a). Qed.

Lemma count_app (f : Action -> bool) (l1 l2 : list Action) :
  count f (l1 ++ l2) = (count f l1 + count f l2)%nat.
Proof. unfold count. by rewrite List.filter_app, length_app. Qed.

Lemma count_map {A} (f : Action -> bool) (g : A -> Action) (l : list A) :
  (forall x, f (g x) = false) -> count f (map g l) = 0%nat.
Proof.
  intros H. induction l as [|x l IH]; [done|].
  cbn [map]. by rewrite count_cons, H, IH.
Qed.

Arguments count : simpl never.

Ltac count_completions :=
  unfold completes_once in *; cbn in *;
  repeat first [ rewrite emitted_app | rewrite emitted_map by done
               | rewrite emitted_cons | rewrite emitted_nil
               | rewrite count_app | rewrite count_map by done
               | rewrite count_cons | rewrite count_nil ];
  cbn; intuition (try congruence; try lia).

Lemma step_completes_once (definition : DefinitionApi) (s : State) (i : Input) :
  i <> Stop -> completes_once s -> completes_once (step definition s i).
Proof.
  intros Hi Hs. destruct i as [ev|args answer| |]; [| |done|]; unfold_code.
  - destruct ev; repeat case_match; simplify_eq; count_completions.
  - destruct (definitionExecution s); [|done].
    destruct (signal_loop_log args answer (running s) s) as (v & l' & ->).
    count_completions.
  - repeat case_match; simplify_eq; count_completions.
Qed.

Lemma steps_completes_once (definition : DefinitionApi) (inputs : list Input) (s : State) :
  ~ In Stop inputs -> completes_once s -> completes_once (steps definition s inputs).
Proof.
  revert s. induction inputs as [|i inputs IH]; intros s Hi Hs; [done|].
  change (steps definition s (i :: inputs))
    with (steps definition (step definition s i) inputs).
  apply IH.
  - intros H. apply Hi. by right.
  - apply step_completes_once; [|done]. intros ->. apply Hi. by left.
Qed.

(** X6: in a run started by [execute] or by [resume] in which [stop] is not
    called, whatever the processes emit afterwards, the completion callback
    is called at most once, [end] is emitted at most once and [error] is
    emitted at most once: once the run has completed, its listeners are off
    the processes and a later [end] or [error] of a process is not heard. *)
Theorem run_completes_at_most_once
  (definition : DefinitionApi) (state : SavedState) (callback : option Callback)
  (inputs : list Input) :
  ~ In Stop inputs ->
  ((count is_callback_call (trace (run_execute definition callback inputs)) <= 1)%nat /\
   (emitted EvEnd (trace (run_execute definition callback inputs)) <= 1)%nat /\
   (count is_error_event (trace (run_execute definition callback inputs)) <= 1)%nat) /\
  ((count is_callback_call (trace (run_resume definition state callback inputs)) <= 1)%nat /\
   (emitted EvEnd (trace (run_resume definition state callback inputs)) <= 1)%nat /\
   (count is_error_event (trace (run_resume definition state callback inputs)) <= 1)%nat).
Proof.
  intros Hi.
  assert (He : completes_once (run_execute definition callback inputs)).
  { apply steps_completes_once; [done|]. unfold_code.
    repeat case_match; simplify_eq; count_completions. }
  assert (Hr : completes_once (run_resume definition state callback inputs)).
  { apply steps_completes_once; [done|]. unfold_code.
    repeat case_match; simplify_eq; try rewrite forEach_effect in *;
      simplify_eq; count_completions. }
  destruct He as (_ & ? & ? & ?), Hr as (_ & ? & ? & ?). auto.
Qed.

Lemma run_completes_at_most_once_witness :
  let inputs := [ProcessEmits (PEnter Samples.orderExecution);
                 ProcessEmits (PEnd Samples.orderExecution);
                 ProcessEmits (PEnd Samples.orderExecution);
                 ProcessEmits (PError {| message := "late" |})] in
  (count is_callback_call (trace (run_execute Samples.sales (Some 7%nat) inputs)) <= 1)%nat /\
  (emitted EvEnd (trace (run_execute Samples.sales (Some 7%nat) inputs)) <= 1)%nat /\
  (count is_error_event (trace (run_execute Samples.sales (Some 7%nat) inputs)) <= 1)%nat.
Proof.
  intros inputs.
  apply (run_completes_at_most_once Samples.sales Samples.saved (Some 7%nat) inputs).
  subst inputs. intros [H|[H|[H|[H|[]]]]]; discriminate.
Defined.

(** [stop] is the exception: called after the run has completed, it
    completes the run once more. *)
Example stop_after_completion_completes_again :
  trace (run_execute Samples.sales (Some 7%nat)
           [ProcessEmits (PEnter Samples.orderExecution);
            ProcessEmits (PEnd Samples.orderExecution);
            Stop]) =
    [ProcessRun Samples.order; Emit EvEnter;
     AssignResult [("ordered", "yes")];
     CallbackCall 7%nat None; Emit EvEnd;
     CallbackCall 7%nat None; Emit EvEnd].
Proof. reflexivity. Qed.

(** *** Where the calls into the processes come from *)

Lemma message_from_later (definition : DefinitionApi) (seen more : list Input)
      (m : Message) (owner : string) :
  message_from definition seen m owner -> message_from definition (seen ++ more) m owner.
Proof. intros [H1 H2]. split; [|done]. apply in_or_app. by left. Qed.

Lemma provenance_later (definition : DefinitionApi) (seen more : list Input) (s : State) :
  provenance definition seen s -> provenance definition (seen ++ more) s.
Proof.
  intros (H1 & H2 & H3 & H4). repeat split.
  - intros pe Hpe. apply in_or_app. left. by apply H1.
  - apply in_or_app. left. by apply (H2 t m).
  - by apply (H2 t m).
  - apply in_or_app. left. by apply (H3 pe m).
  - by apply (H3 pe m).
  - apply in_or_app. left. by apply (H3 pe m).
  - by apply H4.
  - destruct (H4 p H) as [_ [?|(m & Hm)]]; [by left|right].
    exists m. by apply message_from_later.
Qed.

(** The invariant after a change of the state that adds [l] to the trace. *)
Lemma provenance_update (definition : DefinitionApi) (seen : list Input)
      (s s' : State) (l : list Action) :
  provenance definition seen s ->
  trace s' = trace s ++ l ->
  (forall pe, In pe (running s') ->
     In pe (running s) \/ In (ProcessEmits (PEnter pe)) seen) ->
  (forall t m, In (t, m) (immediates s') ->
     In (t, m) (immediates s) \/ message_from definition seen m t) ->
  (forall pe m, In (ProcessSendMessage pe m) l ->
     In pe (running s) /\ message_from definition seen m (pe_id pe)) ->
  (forall p, In (ProcessRun p) l ->
     In p (processes definition) /\ exists m, message_from definition seen m (p_id p)) ->
  provenance definition seen s'.
Proof.
  intros (H1 & H2 & H3 & H4) Ht Hr Hq Hs Hp. split; [|split; [|split]].
  - intros pe Hpe. destruct (Hr pe Hpe); auto.
  - intros t m Hm. destruct (Hq t m Hm); auto.
  - intros pe m Hm. rewrite Ht in Hm. apply List.in_app_or in Hm as [Hm|Hm]; [auto|].
    destruct (Hs pe m Hm). auto.
  - intros p Hrun. rewrite Ht in Hrun. apply List.in_app_or in Hrun as [Hrun|Hrun]; [auto|].
    destruct (Hp p Hrun). auto.
Qed.

(** What [complete(err)] leaves alone. *)
Lemma call_complete_quiet (definition : DefinitionApi) (err : option Err) (s : State) :
  let s' := state_of (DefinitionExecution.call_complete definition err s) in
  running s' = running s /\ immediates s' = immediates s /\
  exists l, trace s' = trace s ++ l /\ forall a, In a l -> is_process_call a = false.
Proof.
  unfold_code. repeat case_match; simplify_eq; cbn; repeat split;
    first [ by exists []; split; [by rewrite List.app_nil_r|]
          | eexists; split; [rewrite <- ?List.app_assoc; reflexivity|];
            cbn; intros a Ha; intuition (by subst) ].
Qed.

Lemma onEnd_quiet (definition : DefinitionApi) (pe : ProcessExecution) (s : State) :
  let s' := state_of (DefinitionExecution.onEnd definition pe s) in
  (forall q, In q (running s') -> In q (running s)) /\ immediates s' = immediates s /\
  exists l, trace s' = trace s ++ l /\ forall a, In a l -> is_process_call a = false.
Proof.
  destruct (in_dec ProcessExecution_eq_dec pe (running s)) as [Hin|Hn].
  - destruct (running_split pe (running s) Hin) as (l1 & l2 & Hr & Hl1).
    rewrite (onEnd_found definition pe s l1 l2 Hr Hl1). cbv zeta.
    set (s1 := add_trace _ _).
    assert (H1 : forall q, In q (running s1) -> In q (running s)).
    { subst s1. cbn. rewrite Hr. intros q Hq. apply List.in_app_or in Hq.
      apply in_or_app. destruct Hq; [by left|right; by right]. }
    destruct (l1 ++ l2).
    + destruct (call_complete_quiet definition None s1) as (-> & -> & l & -> & Hl).
      split; [done|split; [done|]].
      exists (AssignResult (pe_getOutput pe) :: l). split.
      * subst s1. cbn. by rewrite <- List.app_assoc.
      * intros a [<-|Ha]; auto.
    + split; [done|split; [done|]].
      exists [AssignResult (pe_getOutput pe)]. split; [done|]. by intros a [<-|[]].
  - rewrite (onEnd_not_found definition pe s Hn).
    destruct (running s) eqn:E; cbv beta iota zeta.
    + destruct (call_complete_quiet definition None s) as (Hr & Hq & l & Ht & Hl).
      split; [|split; [done|]].
      * rewrite Hr, E. done.
      * by exists l.
    + cbn. rewrite E. split; [done|split; [done|]].
      exists []. by rewrite List.app_nil_r.
Qed.

(** [sendMessage] hands the message to a running execution of the target
    process, or throws. *)
Lemma sendMessage_cases (target : string) (m : Message) (s : State) :
  DefinitionExecution.sendMessage target m s =
    Threw (TypeError "Cannot read property 'sendMessage' of undefined") s \/
  exists pe, In pe (running s) /\ pe_id pe = target /\
             DefinitionExecution.sendMessage target m s =
               Returned tt (add_trace (ProcessSendMessage pe m) s).
Proof.
  destruct (findIndex_cases (fun p => bool_decide (pe_id p = target)) (running s))
    as [[_ Hall]|(l1 & pe & l2 & Hr & Hall & Hpe & _)].
  - left. apply sendMessage_not_running. intros pe Hpe.
    rewrite forallb_forall in Hall. specialize (Hall pe Hpe).
    by apply negb_true_iff, bool_decide_eq_false in Hall.
  - right. apply bool_decide_eq_true in Hpe. exists pe. split; [|split; [done|]].
    + rewrite Hr. apply in_or_app. right. by left.
    + apply (sendMessage_first target m s l1 l2 pe Hr); [|done].
      intros q Hq. rewrite forallb_forall in Hall. specialize (Hall q Hq).
      by apply negb_true_iff, bool_decide_eq_false in Hall.
Qed.

Lemma getProcessById_Some (definition : DefinitionApi) (processId : string) (p : Process) :
  DefinitionExecution.getProcessById definition processId = Some p ->
  In p (processes definition) /\ p_id p = processId.
Proof.
  unfold DefinitionExecution.getProcessById. intros H.
  apply find_some in H as [H1 H2]. by apply bool_decide_eq_true in H2.
Qed.

Ltac same_trace := symmetry; apply List.app_nil_r.
Ltac longer_trace := cbn; rewrite <- ?List.app_assoc; reflexivity.

Lemma in_last {A} (l : list A) (x : A) : In x (l ++ [x]).
Proof. apply in_or_app. right. by left. Qed.

Ltac no_calls :=
  cbn; intros;
  repeat match goal with
         | H : False |- _ => destruct H
         | H : _ \/ _ |- _ => destruct H as [H|H]
         | H : In _ (_ ++ _) |- _ => apply List.in_app_or in H
         | H : In _ (map _ _) |- _ => apply in_map_iff in H as (? & ? & ?)
         | H : In _ (_ :: _) |- _ => destruct H as [H|H]
         | H : In _ [] |- _ => destruct H
         end;
  simplify_eq; auto using in_last.

Ltac kept H :=
  eapply provenance_update; [exact H | first [same_trace|longer_trace] | no_calls ..].

Lemma step_provenance (definition : DefinitionApi) (seen : list Input)
      (s : State) (i : Input) :
  provenance definition seen s ->
  provenance definition (seen ++ [i]) (step definition s i).
Proof.
  intros Hs. apply (provenance_later definition seen [i]) in Hs.
  destruct i as [ev|args answer| |].
  - unfold step, handle. cbv beta iota delta [bind get ret].
    destruct (listening s); [|done].
    destruct ev as [pe| |m|pe|err]; cbn [DefinitionExecution.listener].
    + unfold_code. repeat case_match; simplify_eq;
        kept Hs.
    + unfold_code. repeat case_match; simplify_eq;
        kept Hs.
    + unfold DefinitionExecution.onMessage.
      cbv beta iota zeta delta [bind get ret throw modify effect DefinitionExecution.setImmediate].
      destruct (getTargetProcess definition (via_targetId m)) as [t|] eqn:Ht; [|kept Hs].
      destruct (DefinitionExecution.getRunningIndexById t s =? -1).
      * destruct (DefinitionExecution.getProcessById definition t) as [p|] eqn:Hp; [|kept Hs].
        apply getProcessById_Some in Hp as [Hp <-].
        kept Hs.
        -- right. split; [apply in_last|done].
        -- split; [done|]. exists m. split; [apply in_last|done].
      * destruct (sendMessage_cases t m s) as [->|(pe & Hpe & <- & ->)]; [kept Hs|].
        kept Hs.
        split; [done|]. split; [apply in_last|done].
    + destruct (onEnd_quiet definition pe s) as (Hr & Hq & l & Ht & Hl).
      assert (P : provenance definition (seen ++ [ProcessEmits (PEnd pe)])
                    (state_of (DefinitionExecution.onEnd definition pe s))).
      { eapply provenance_update; [exact Hs | exact Ht | | | |].
        - auto.
        - rewrite Hq. auto.
        - intros q m Hm. by apply Hl in Hm.
        - intros p Hp. by apply Hl in Hp. }
      destruct (DefinitionExecution.onEnd definition pe s); [done|].
      kept P.
    + unfold_code. repeat case_match; simplify_eq;
        kept Hs.
  - unfold_code. destruct (definitionExecution s); [|done].
    destruct (signal_loop_log args answer (running s) s) as (v & l' & ->).
    kept Hs.
  - unfold_code. destruct (definitionExecution s); [|done].
    rewrite forEach_effect. repeat case_match; simplify_eq;
      kept Hs.
  - unfold step, handle. cbv beta iota delta [bind get ret modify].
    destruct (immediates s) as [|[t m] q] eqn:Hq; [done|].
    destruct (Hs) as (_ & H2 & _). specialize (H2 t m). rewrite Hq in H2.
    specialize (H2 (or_introl eq_refl)).
    destruct (sendMessage_cases t m (set_immediates q s)) as [->|(pe & Hpe & <- & ->)].
    + kept Hs.
      left. rewrite Hq. by right.
    + kept Hs.
      left. rewrite Hq. by right.
Qed.

Lemma steps_provenance (definition : DefinitionApi) (inputs seen : list Input) (s : State) :
  provenance definition seen s ->
  provenance definition (seen ++ inputs) (steps definition s inputs).
Proof.
  revert seen s. induction inputs as [|i inputs IH]; intros seen s Hs.
  - by rewrite List.app_nil_r.
  - change (steps definition s (i :: inputs))
      with (steps definition (step definition s i) inputs).
    change (seen ++ i :: inputs) with (seen ++ [i] ++ inputs).
    rewrite List.app_assoc. apply IH. by apply step_provenance.
Qed.

Lemma mainProcess_Some (definition : DefinitionApi) (p : Process) :
  DefinitionExecution.mainProcess definition = Some p ->
  In p (processes definition) /\ Some (p_id p) = entryPointId definition.
Proof.
  unfold DefinitionExecution.mainProcess. intros H.
  apply find_some in H as [H1 H2]. by apply bool_decide_eq_true in H2.
Qed.

Lemma execute_provenance (definition : DefinitionApi) (callback : option Callback) :
  provenance definition [] (run_execute definition callback []).
Proof.
  unfold run_execute, steps. cbn [foldl]. unfold_code.
  repeat case_match; simplify_eq; unfold provenance; cbn; repeat split; no_calls;
    match goal with
    | H : DefinitionExecution.mainProcess _ = Some _ |- _ =>
        apply mainProcess_Some in H as [? ?]; auto
    end.
Qed.

Lemma resume_provenance (definition : DefinitionApi) (state : SavedState)
      (callback : option Callback) :
  provenance definition [] (run_resume definition state callback []).
Proof.
  unfold run_resume, steps. cbn [foldl]. unfold_code.
  repeat case_match; simplify_eq; try rewrite forEach_effect in *; simplify_eq;
    unfold provenance; cbn; repeat split; no_calls.
Qed.

Lemma run_execute_provenance (definition : DefinitionApi) (callback : option Callback)
      (inputs : list Input) :
  provenance definition inputs (run_execute definition callback inputs).
Proof.
  apply (steps_provenance definition inputs []), (execute_provenance definition callback).
Qed.

Lemma run_resume_provenance (definition : DefinitionApi) (state : SavedState)
      (callback : option Callback) (inputs : list Input) :
  provenance definition inputs (run_resume definition state callback inputs).
Proof.
  apply (steps_provenance definition inputs []),
    (resume_provenance definition state callback).
Qed.

(** X7: in a run started by [execute], the definition calls [run()] only on
    processes of its own, and only on the executable process or on the
    process that owns the target of a message some process emitted. *)
Theorem only_the_entry_process_and_message_targets_are_run
  (definition : DefinitionApi) (callback : option Callback) (inputs : list Input)
  (p : Process) :
  In (ProcessRun p) (trace (run_execute definition callback inputs)) ->
  In p (processes definition) /\
  (Some (p_id p) = entryPointId definition \/
   exists m, In (ProcessEmits (PMessage m)) inputs /\
             getTargetProcess definition (via_targetId m) = Some (p_id p)).
Proof.
  intros H.
  destruct (run_execute_provenance definition callback inputs) as (_ & _ & _ & H4).
  apply H4 in H. exact H.
Qed.

Lemma only_the_entry_process_and_message_targets_are_run_witness :
  In Samples.billing (processes Samples.sales) /\
  (Some (p_id Samples.billing) = entryPointId Samples.sales \/
   exists m, In (ProcessEmits (PMessage m))
                [ProcessEmits (PEnter Samples.orderExecution);
                 ProcessEmits (PMessage Samples.invoice)] /\
             getTargetProcess Samples.sales (via_targetId m) = Some (p_id Samples.billing)).
Proof.
  apply (only_the_entry_process_and_message_targets_are_run Samples.sales None
           [ProcessEmits (PEnter Samples.orderExecution);
            ProcessEmits (PMessage Samples.invoice)] Samples.billing).
  vm_compute. right. right. by left.
Defined.

(** X8: in a run started by [execute] or by [resume], a message is handed
    only to an execution that has entered, of the process that owns the
    target of the message, and only a message that some process emitted. *)
Theorem a_message_reaches_only_an_entered_execution_of_its_target
  (definition : DefinitionApi) (state : SavedState) (callback : option Callback)
  (inputs : list Input) (pe : ProcessExecution) (m : Message) :
  In (ProcessSendMessage pe m) (trace (run_execute definition callback inputs)) \/
  In (ProcessSendMessage pe m) (trace (run_resume definition state callback inputs)) ->
  In (ProcessEmits (PMessage m)) inputs /\
  getTargetProcess definition (via_targetId m) = Some (pe_id pe) /\
  In (ProcessEmits (PEnter pe)) inputs.
Proof.
  intros [H|H].
  - destruct (run_execute_provenance definition callback inputs) as (_ & _ & H3 & _).
    apply H3 in H as [[? ?] ?]. auto.
  - destruct (run_resume_provenance definition state callback inputs) as (_ & _ & H3 & _).
    apply H3 in H as [[? ?] ?]. auto.
Qed.

Lemma a_message_reaches_only_an_entered_execution_of_its_target_witness :
  In (ProcessEmits (PMessage Samples.invoice))
     [ProcessEmits (PEnter Samples.orderExecution);
      ProcessEmits (PMessage Samples.invoice);
      ProcessEmits (PEnter Samples.billingExecution);
      Immediate] /\
  getTargetProcess Samples.sales (via_targetId Samples.invoice) =
    Some (pe_id Samples.billingExecution) /\
  In (ProcessEmits (PEnter Samples.billingExecution))
     [ProcessEmits (PEnter Samples.orderExecution);
      ProcessEmits (PMessage Samples.invoice);
      ProcessEmits (PEnter Samples.billingExecution);
      Immediate].
Proof.
  apply (a_message_reaches_only_an_entered_execution_of_its_target
           Samples.sales Samples.saved None
           [ProcessEmits (PEnter Samples.orderExecution);
            ProcessEmits (PMessage Samples.invoice);
            ProcessEmits (PEnter Samples.billingExecution);
            Immediate] Samples.billingExecution Samples.invoice).
  left. vm_compute. do 3 right. by left.
Defined.

(** *** Saving and resuming *)







(** *** Before [execute] *)

Lemma step_never_executed (definition : DefinitionApi) (s : State) (i : Input) :
  definitionExecution s = false -> listening s = false -> immediates s = [] ->
  step definition s i = s.
Proof.
  intros He Hl Hq. destruct i; unfold_code; by rewrite ?He, ?Hl, ?Hq.
Qed.

(** X11: a definition that was never executed has no execution to act on:
    [stop()] and [signal()] do nothing, [signal()] answers [undefined],
    nothing a process emits is heard, and [getState()] goes on reporting
    [pending] without a [processes] entry, whatever happens. *)
Theorem a_definition_never_executed_stays_pending
  (definition : DefinitionApi) (s : State) (inputs : list Input) :
  definitionExecution s = false -> listening s = false -> immediates s = [] ->
  steps definition s inputs = s /\
  (forall args answer, DefinitionInstance.signal args answer s = Returned undefined s) /\
  DefinitionInstance.getState definition (steps definition s inputs) =
    {| ds_id := def_id definition; ds_type := "bpmn:Definition";
       ds_state := StatusPending; ds_entryPointId := None;
       ds_stopped := None; ds_processes := None |}.
Proof.
  intros He Hl Hq.
  assert (E : steps definition s inputs = s).
  { induction inputs as [|i inputs IH]; [done|].
    change (steps definition s (i :: inputs))
      with (steps definition (step definition s i) inputs).
    by rewrite step_never_executed. }
  split; [done|split].
  - intros args answer. unfold_code. by rewrite He.
  - rewrite E. unfold DefinitionInstance.getState. by rewrite He.
Qed.

Lemma a_definition_never_executed_stays_pending_witness :
  steps Samples.sales initial
        [Stop; Signal ["task"] (fun _ => true);
         ProcessEmits (PEnter Samples.orderExecution); Immediate] = initial.
Proof.
  apply (a_definition_never_executed_stays_pending Samples.sales initial
           [Stop; Signal ["task"] (fun _ => true);
            ProcessEmits (PEnter Samples.orderExecution); Immediate]);
    reflexivity.
Defined.

(** *** An [end] event of an execution that is not running *)

(** X12: an [end] event that comes from an execution which is not in the
    running list (it has ended before, or it never entered) moves nothing
    and assigns no output.  While another execution is running it is
    ignored altogether; when no execution is running it completes the run
    without error, as the last [end] would. *)
Theorem end_of_an_execution_not_running
  (definition : DefinitionApi) (pe : ProcessExecution) (s : State) :
  listening s = true ->
  ~ In pe (running s) ->
  let s' := step definition s (ProcessEmits (PEnd pe)) in
  running s' = running s /\ completed s' = completed s /\
  assigned (added s s') = [] /\
  (running s <> [] -> s' = s) /\
  (forall callback,
     running s = [] -> complete s = Some callback ->
     listening s' = false /\
     added s s' =
       match callback with Some cb => [CallbackCall cb None] | None => [] end ++
       [Emit EvEnd]).
Proof.
  intros Hl Hn s'. subst s'. unfold step, handle. cbv beta iota delta [bind get ret].
  rewrite Hl. cbn [DefinitionExecution.listener].
  rewrite (onEnd_not_found definition pe s Hn).
  destruct (running s) as [|q l] eqn:Er.
  - unfold_code. destruct (complete s) as [[cb|]|] eqn:Ec; cbn; rewrite ?Er;
      (split; [done|split; [done|split; [|split; [done|]]]]).
    all: try (simpl_added; done).
    all: intros c _ Hc; simplify_eq; split; [done|simpl_added; done].
  - cbn. rewrite Er. repeat split; try done.
    unfold added. by rewrite drop_all.
Qed.

Lemma end_of_an_execution_not_running_witness :
  let s := run_execute Samples.sales None
             [ProcessEmits (PEnter Samples.orderExecution);
              ProcessEmits (PEnter Samples.billingExecution);
              ProcessEmits (PEnd Samples.orderExecution)] in
  step Samples.sales s (ProcessEmits (PEnd Samples.orderExecution)) = s.
Proof.
  intros s.
  apply (end_of_an_execution_not_running Samples.sales Samples.orderExecution s).
  - reflexivity.
  - intros [H|[]]. discriminate.
  - discriminate.
Defined.
